(** * Univariate Newton-Raphson and bisection for the b-th root

    Shallow embedding of the notebook [01_univar_newton.ipynb]: the loss
    [L], its derivative helpers [d1L] and [d2L], and the two iterators
    [root_newton] and [root_binary].

    The Python code is duck-typed over its numbers, so the embedding is
    written once over a small interface [PyNum] of the operations the
    code uses, and instantiated three times: at IEEE-754 binary64, the
    [float] of a Python run (round to nearest, ties to even, with
    subnormals; overflow is not modelled); at the reals [R], exact
    arithmetic without rounding, for statements that do not depend on
    rounding (the control flow, the shape of the results, the
    derivatives); and at the rationals [bigQ], to run the exact model on
    concrete inputs.  Where rounding matters (the bisection bracket, the
    case [b = 1]) the statements are made for binary64.  Python's [x / 0]
    raises [ZeroDivisionError]; the result type [py_result] records
    that. *)

From Stdlib Require Import ZArith QArith List Lia Lra Reals Qreals Psatz Bool.
From Bignums Require Import BigQ.
Import ListNotations.

(** ** The numeric interface used by the notebook *)

Class PyNum (A : Type) := {
  py_add : A -> A -> A;
  py_sub : A -> A -> A;
  py_mul : A -> A -> A;
  (** true division [a / b]; only applied to a non-zero divisor *)
  py_div : A -> A -> A;
  (** a Python int used as a number *)
  py_of_Z : Z -> A;
  (** [py_ltb a b] is [a < b] *)
  py_ltb : A -> A -> bool;
  py_eqb : A -> A -> bool;
  py_abs : A -> A
}.

(** Outcome of a call: a value, or the exception raised by [/]. *)
Inductive py_result (T : Type) : Type :=
| Ok (v : T)
| ZeroDivisionError.
Arguments Ok {T} v.
Arguments ZeroDivisionError {T}.

Definition map_result {T U : Type} (f : T -> U) (r : py_result T) : py_result U :=
  match r with Ok v => Ok (f v) | ZeroDivisionError => ZeroDivisionError end.

Section Loss.
Context {A : Type} `{PyNum A}.

  (** [y ** n] for an int exponent [n >= 0] *)
Fixpoint py_pow (y : A) (n : nat) : A :=
    match n with
    | O => py_of_Z 1
    | S n' => py_mul y (py_pow y n')
    end.

  (** [a / b], raising [ZeroDivisionError] when [b == 0] *)
Definition py_truediv (a b : A) : py_result A :=
    if py_eqb b (py_of_Z 0) then ZeroDivisionError else Ok (py_div a b).

  (** [L = lambda x_k, x, b: (x_k**b - x)**2] *)
Definition L (x_k x : A) (b : nat) : A :=
    py_pow (py_sub (py_pow x_k b) x) 2.

  (** [d1L = lambda x_k, x, b: 2*b*(x_k**(b+1) - x*x_k)] *)
Definition d1L (x_k x : A) (b : nat) : A :=
    py_mul (py_of_Z (2 * Z.of_nat b))
           (py_sub (py_pow x_k (b + 1)) (py_mul x x_k)).

  (** [d2L = lambda x_k, x, b: 2*b*((b+1)*x_k**b - x)] *)
Definition d2L (x_k x : A) (b : nat) : A :=
    py_mul (py_of_Z (2 * Z.of_nat b))
           (py_sub (py_mul (py_of_Z (Z.of_nat b + 1)) (py_pow x_k b)) x).
End Loss.

(** Python's [len(x_list) < max_iter] *)
Definition len_lt {A : Type} (l : list A) (max_iter : Z) : bool :=
  (Z.of_nat (length l) <? max_iter)%Z.

(** Default keyword arguments of both iterators ([max_iter=2000]). *)
Definition default_max_iter : Z := 2000.

(** ** [root_newton]
<<
def root_newton(x, b, tol=10**-17, max_iter=2000):
    x_k = x / 2                    # starting guess
    x_list = [x_k]                 # list collecting all candidates
    while d1L(x_k, x, b) > tol and len(x_list) < max_iter:
        x_k -= d1L(x_k, x, b)/d2L(x_k, x, b)
        x_list.append(x_k)
    return x_list
>>
    The loop state is the pair of locals [(x_k, x_list)].  Each pass
    appends one element while [len(x_list) < max_iter], so the loop runs
    at most [max_iter] times and [Z.to_nat max_iter] is enough fuel
    (see [Newton.loop_fuel_enough]). *)
Module Newton.
Section Newton.
Context {A : Type} `{PyNum A}.

Record state := mk_state { x_k : A; x_list : list A }.

Definition cond (x : A) (b : nat) (tol : A) (max_iter : Z) (s : state) : bool :=
    py_ltb tol (d1L (x_k s) x b) && len_lt (x_list s) max_iter.

  (** the loop body: [x_k -= d1L/d2L; x_list.append(x_k)] *)
Definition body (x : A) (b : nat) (s : state) : py_result state :=
    match py_truediv (d1L (x_k s) x b) (d2L (x_k s) x b) with
    | ZeroDivisionError => ZeroDivisionError
    | Ok q =>
        let x_k' := py_sub (x_k s) q in
        Ok (mk_state x_k' (x_list s ++ [x_k']))
    end.

  (** the value assigned to [x_k] by a pass whose division succeeds *)
Definition step (x : A) (b : nat) (y : A) : A :=
    py_sub y (py_div (d1L y x b) (d2L y x b)).

Fixpoint loop (fuel : nat) (x : A) (b : nat) (tol : A) (max_iter : Z)
      (s : state) : py_result state :=
    match fuel with
    | O => Ok s
    | S fuel' =>
        if cond x b tol max_iter s then
          match body x b s with
          | ZeroDivisionError => ZeroDivisionError
          | Ok s' => loop fuel' x b tol max_iter s'
          end
        else Ok s
    end.

Definition init (x : A) : state :=
    let x_k := py_div x (py_of_Z 2) in mk_state x_k [x_k].

Definition root_newton (x : A) (b : nat) (tol : A) (max_iter : Z)
      : py_result (list A) :=
    match loop (Z.to_nat max_iter) x b tol max_iter (init x) with
    | ZeroDivisionError => ZeroDivisionError
    | Ok s => Ok (x_list s)
    end.
End Newton.
End Newton.

(** ** [root_binary]
<<
def root_binary(x, b, tol=10**-16, max_iter=2000):
    high = x / 2
    low = 0
    mean = (high + low) / 2
    x_list = [mean]
    while abs(mean**b-x) > tol and len(x_list) < max_iter:
        mean = (high + low) / 2
        if mean**b > x:
            high = mean
        else:
            low = mean
        x_list.append(mean)
    return x_list
>>
    The only divisor is the literal [2], so no exception is possible. *)
Module Binary.
Section Binary.
Context {A : Type} `{PyNum A}.

Record state := mk_state { high : A; low : A; mean : A; x_list : list A }.

Definition cond (x : A) (b : nat) (tol : A) (max_iter : Z) (s : state) : bool :=
    py_ltb tol (py_abs (py_sub (py_pow (mean s) b) x)) && len_lt (x_list s) max_iter.

Definition body (x : A) (b : nat) (s : state) : state :=
    let mean' := py_div (py_add (high s) (low s)) (py_of_Z 2) in
    if py_ltb x (py_pow mean' b)
    then mk_state mean' (low s) mean' (x_list s ++ [mean'])
    else mk_state (high s) mean' mean' (x_list s ++ [mean']).

Fixpoint loop (fuel : nat) (x : A) (b : nat) (tol : A) (max_iter : Z)
      (s : state) : state :=
    match fuel with
    | O => s
    | S fuel' =>
        if cond x b tol max_iter s then loop fuel' x b tol max_iter (body x b s)
        else s
    end.

Definition init (x : A) : state :=
    let high := py_div x (py_of_Z 2) in
    let low := py_of_Z 0 in
    let mean := py_div (py_add high low) (py_of_Z 2) in
    mk_state high low mean [mean].

Definition root_binary (x : A) (b : nat) (tol : A) (max_iter : Z) : list A :=
    x_list (loop (Z.to_nat max_iter) x b tol max_iter (init x)).

  (** the locals [(high, low, mean, x_list)] after [k] passes of the loop *)
Definition after (x : A) (b : nat) (k : nat) : state :=
    Nat.iter k (body x b) (init x).
End Binary.
End Binary.

(** ** Instances: exact real and exact rational arithmetic *)

(** Exact real arithmetic: no operation rounds.  A statement proved at
    this instance describes a Python run on floats only when rounding does
    not change what it states; the binary64 instance [PyNum_F] below is
    the one that rounds. *)
#[global] Instance PyNum_R : PyNum R := {
  py_add := Rplus;
  py_sub := Rminus;
  py_mul := Rmult;
  py_div := Rdiv;
  py_of_Z := IZR;
  py_ltb a b := if Rlt_dec a b then true else false;
  py_eqb a b := if Req_dec_T a b then true else false;
  py_abs := Rabs
}.

Definition bigQ_ltb (a b : bigQ) : bool :=
  match BigQ.compare a b with Lt => true | _ => false end.

#[global] Instance PyNum_bigQ : PyNum bigQ := {
  py_add := BigQ.add_norm;
  py_sub := BigQ.sub_norm;
  py_mul := BigQ.mul_norm;
  py_div := BigQ.div_norm;
  py_of_Z := BigQ.of_Z;
  py_ltb := bigQ_ltb;
  py_eqb := BigQ.eq_bool;
  py_abs a := if bigQ_ltb a (BigQ.of_Z 0) then BigQ.opp a else a
}.


(** The value of a [bigQ] as a real number. *)
Definition bigQ_to_R (a : bigQ) : R := Q2R (BigQ.to_Q a).

(** Python ints as [bigQ] numbers, and the notebook's [tol = 10**-9]
    taken exactly. *)
Definition q (z : Z) : bigQ := BigQ.of_Z z.
Definition tol_1e9 : bigQ := BigQ.div_norm (q 1) (q (10 ^ 9)).

(** ** Interval bounds for the Newton run of the notebook

    [bounds_ok x b lo hi bs] checks, with exact rationals, that each pair
    [(lo', hi')] of [bs] encloses the image of the previous interval
    [[lo, hi]] under the end points: [lo' <= step lo], [step hi <= hi'],
    and that every lower bound stays above [12].  For [x = 144], [b = 2]
    the map [step] is increasing above [12], so the pairs enclose the
    successive iterates. *)
Definition qd (n d : Z) : bigQ := BigQ.div_norm (q n) (q d).

Definition bigQ_leb (a c : bigQ) : bool := negb (bigQ_ltb c a).

Fixpoint bounds_ok (x : bigQ) (b : nat) (lo hi : bigQ) (bs : list (bigQ * bigQ)) : bool :=
  match bs with
  | [] => true
  | (lo', hi') :: bs' =>
      bigQ_ltb (q 12) lo' && bigQ_leb lo' (Newton.step x b lo) &&
      bigQ_leb (Newton.step x b hi) hi' && bounds_ok x b lo' hi' bs'
  end.

(** enclosures of the iterates [y_1, ..., y_10] from [y_0 = 144/2 = 72],
    rounded outwards to forty decimal places *)
Definition newton_144_bounds : list (bigQ * bigQ) := [
(qd 484485981308411214953271028037383177570093 10000000000000000000000000000000000000000, qd 242242990654205607476635514018691588785047 5000000000000000000000000000000000000000);
   (qd 164866739315639450897280479368021760813899 5000000000000000000000000000000000000000, qd 1648667393156394508972804793680217608139 50000000000000000000000000000000000000);
   (qd 114987683911416686312068221258952599565311 5000000000000000000000000000000000000000, qd 112292660069742857726629122323195898013 4882812500000000000000000000000000000);
   (qd 42155083312351336212328146283798819112187 2500000000000000000000000000000000000000, qd 134896266599524275879450068108156221159 8000000000000000000000000000000000000);
   (qd 33811395153879125734180295386714636720889 2500000000000000000000000000000000000000, qd 67622790307758251468360590773429273441779 5000000000000000000000000000000000000000);
   (qd 24448489136380500958282833678720665410033 2000000000000000000000000000000000000000, qd 122242445681902504791414168393603327050167 10000000000000000000000000000000000000000);
   (qd 120060231889366534606993195417904139019147 10000000000000000000000000000000000000000, qd 30015057972341633651748298854476034754787 2500000000000000000000000000000000000000);
   (qd 60000022647728952875426379570233669043043 5000000000000000000000000000000000000000, qd 120000045295457905750852759140467338086087 10000000000000000000000000000000000000000);
   (qd 60000000000012822979374297738692532438709 5000000000000000000000000000000000000000, qd 120000000000025645958748595477385064877419 10000000000000000000000000000000000000000);
   (qd 120000000000000000000000008221440001679161 10000000000000000000000000000000000000000, qd 60000000000000000000000004110720000839581 5000000000000000000000000000000000000000)
].

(** ** Instance: IEEE-754 binary64 floating point

    Python's [float] is an IEEE-754 double: every [+], [-], [*], [/] and
    every conversion of an int returns the exact result rounded to the
    nearest double, ties to an even significand.  A double is
    [Fnum * 2 ^ Fexp] with [|Fnum| <= 2 ^ 53] and [Fexp >= -1074]
    ([is_float]); subnormals are the doubles with [Fexp = -1074].  The
    exponent is not bounded above: overflow to [inf] is not modelled.
    Comparisons and [abs] are exact, as in IEEE-754.  [**] is the generic
    [py_pow], a chain of rounded products; for the exponents [1] and [2]
    it rounds once, as the C [pow] Python calls for [float ** int]. *)
Record float := Float { Fnum : Z; Fexp : Z }.

Definition emin : Z := -1074.
Definition prec : Z := 53.

(** the value [Fnum * 2 ^ Fexp] as a rational *)
Definition FQ (f : float) : Q :=
  match Fexp f with
  | Z0 => inject_Z (Fnum f)
  | Zpos p => inject_Z (Fnum f * Z.pow_pos 2 p)
  | Zneg p => Fnum f # (2 ^ p)%positive
  end.

Definition FR (f : float) : R := Q2R (FQ f).

Definition bpow (e : Z) : R := powerRZ 2 e.

Definition is_float (f : float) : Prop :=
  (Z.abs (Fnum f) <= 2 ^ prec)%Z /\ (emin <= Fexp f)%Z.

(** [floor (log2 (p / d))] for [p, d > 0] *)
Definition log2_q (p d : Z) : Z :=
  let a := (Z.log2 d + 1)%Z in (Z.log2 (p * 2 ^ a / d) - a)%Z.

(** [p / d > 0] rounded to nearest, ties to even: the exponent [k] puts
    the significand in [[2^52, 2^53)] (or is [-1074]), [m] and [r] are the
    quotient and remainder of [p / d] in units of [2 ^ k]. *)
Definition round_pos (p d : Z) : float :=
  let k := Z.max emin (log2_q p d - (prec - 1)) in
  let num := if (0 <=? k)%Z then p else (p * 2 ^ (- k))%Z in
  let den := if (0 <=? k)%Z then (d * 2 ^ k)%Z else d in
  let m := (num / den)%Z in
  let r := (num mod den)%Z in
  let m' := match (2 * r ?= den)%Z with
            | Lt => m
            | Gt => (m + 1)%Z
            | Eq => if Z.even m then m else (m + 1)%Z
            end in
  Float m' k.

(** the double nearest to a rational, ties to even *)
Definition round (q : Q) : float :=
  let q' := Qred q in
  match Qnum q' with
  | Z0 => Float 0 0
  | Zpos p => round_pos (Zpos p) (Zpos (Qden q'))
  | Zneg p => let f := round_pos (Zpos p) (Zpos (Qden q')) in Float (- Fnum f) (Fexp f)
  end.

#[global] Instance PyNum_F : PyNum float := {
  py_add a c := round (FQ a + FQ c);
  py_sub a c := round (FQ a - FQ c);
  py_mul a c := round (FQ a * FQ c);
  py_div a c := round (FQ a / FQ c);
  py_of_Z z := round (inject_Z z);
  py_ltb a c := negb (Qle_bool (FQ c) (FQ a));
  py_eqb a c := Qeq_bool (FQ a) (FQ c);
  py_abs a := Float (Z.abs (Fnum a)) (Fexp a)
}.

Definition f_1e16 : float := round (1 # 10 ^ 16).

(* ===================================================================== *)
(** * Proofs *)
(* ===================================================================== *)

(** ** Generic facts: the loops only append, and the fuel is enough *)

Section Generic.
Context {A : Type} `{PyNum A}.

Lemma newton_body_append x b s s' :
    Newton.body x b s = Ok s' ->
    Newton.x_list s' = Newton.x_list s ++ [Newton.x_k s'].
  Proof.
    unfold Newton.body. destruct (py_truediv _ _) as [v|]; [|discriminate].
    intros E; inversion E; reflexivity.
  Qed.

Lemma binary_body_append x b s :
    Binary.x_list (Binary.body x b s) = Binary.x_list s ++ [Binary.mean (Binary.body x b s)].
  Proof.
    unfold Binary.body. destruct (py_ltb _ _); reflexivity.
  Qed.

Lemma binary_body_mean x b s :
    Binary.mean (Binary.body x b s)
    = py_div (py_add (Binary.high s) (Binary.low s)) (py_of_Z 2).
  Proof. unfold Binary.body. destruct (py_ltb _ _); reflexivity. Qed.

Lemma len_lt_false_ge (l : list A) m :
    len_lt l m = false -> (Z.to_nat m <= length l)%nat.
  Proof. unfold len_lt. rewrite Z.ltb_ge. lia. Qed.

Lemma len_lt_true (l : list A) m :
    len_lt l m = true -> (Z.of_nat (length l) < m)%Z.
  Proof. unfold len_lt. rewrite Z.ltb_lt. lia. Qed.

Lemma newton_cond_len x b tol m s :
    Newton.cond x b tol m s = true -> (Z.of_nat (length (Newton.x_list s)) < m)%Z.
  Proof.
    unfold Newton.cond. rewrite andb_true_iff. intros [_ Hl]. now apply len_lt_true.
  Qed.

Lemma binary_cond_len x b tol m s :
    Binary.cond x b tol m s = true -> (Z.of_nat (length (Binary.x_list s)) < m)%Z.
  Proof.
    unfold Binary.cond. rewrite andb_true_iff. intros [_ Hl]. now apply len_lt_true.
  Qed.

  (** Once [Z.to_nat max_iter - len(x_list)] passes are allowed, more fuel
      changes nothing: the fuel only stands for the [len < max_iter] exit. *)
Lemma newton_loop_fuel_enough x b tol m : forall f1 f2 s,
    (Z.to_nat m - length (Newton.x_list s) <= f1)%nat -> (f1 <= f2)%nat ->
    Newton.loop f1 x b tol m s = Newton.loop f2 x b tol m s.
  Proof.
    induction f1 as [|f1 IH]; intros f2 s Hf Hle.
    - destruct f2 as [|f2]; [reflexivity|]. simpl.
      destruct (Newton.cond x b tol m s) eqn:Hc; [|reflexivity].
      apply newton_cond_len in Hc. lia.
    - destruct f2 as [|f2]; [lia|]. simpl.
      destruct (Newton.cond x b tol m s) eqn:Hc; [|reflexivity].
      destruct (Newton.body x b s) as [s'|] eqn:Hb; [|reflexivity].
      apply IH; [|lia].
      rewrite (newton_body_append _ _ _ _ Hb), length_app. simpl.
      apply newton_cond_len in Hc. lia.
  Qed.

Lemma binary_loop_fuel_enough x b tol m : forall f1 f2 s,
    (Z.to_nat m - length (Binary.x_list s) <= f1)%nat -> (f1 <= f2)%nat ->
    Binary.loop f1 x b tol m s = Binary.loop f2 x b tol m s.
  Proof.
    induction f1 as [|f1 IH]; intros f2 s Hf Hle.
    - destruct f2 as [|f2]; [reflexivity|]. simpl.
      destruct (Binary.cond x b tol m s) eqn:Hc; [|reflexivity].
      apply binary_cond_len in Hc. lia.
    - destruct f2 as [|f2]; [lia|]. simpl.
      destruct (Binary.cond x b tol m s) eqn:Hc; [|reflexivity].
      apply IH; [|lia].
      rewrite binary_body_append, length_app. simpl.
      apply binary_cond_len in Hc. lia.
  Qed.
End Generic.

(** ** Refinement: the code commutes with a map between number types

    A map [phi] that commutes with every operation of the interface and
    preserves the comparisons carries each run of the code to the run on
    the mapped inputs.  Used below with [bigQ_to_R], so that runs
    evaluated on [bigQ] are runs on [R]. *)

Section Transfer.
Context {A B : Type} `{PA : PyNum A} `{PB : PyNum B} (phi : A -> B).
Hypothesis phi_add : forall a c, phi (py_add a c) = py_add (phi a) (phi c).
Hypothesis phi_sub : forall a c, phi (py_sub a c) = py_sub (phi a) (phi c).
Hypothesis phi_mul : forall a c, phi (py_mul a c) = py_mul (phi a) (phi c).
Hypothesis phi_div : forall a c, phi (py_div a c) = py_div (phi a) (phi c).
Hypothesis phi_of_Z : forall z, phi (py_of_Z z) = py_of_Z z.
Hypothesis phi_ltb : forall a c, py_ltb (phi a) (phi c) = py_ltb a c.
Hypothesis phi_eqb : forall a c, py_eqb (phi a) (phi c) = py_eqb a c.
Hypothesis phi_abs : forall a, phi (py_abs a) = py_abs (phi a).

Lemma phi_pow a n : phi (py_pow a n) = py_pow (phi a) n.
  Proof.
    induction n as [|n IH]; simpl; [apply phi_of_Z|]. now rewrite phi_mul, IH.
  Qed.

Lemma phi_d1L y x b : phi (d1L y x b) = d1L (phi y) (phi x) b.
  Proof. unfold d1L. now rewrite phi_mul, phi_of_Z, phi_sub, phi_pow, phi_mul. Qed.

Lemma phi_d2L y x b : phi (d2L y x b) = d2L (phi y) (phi x) b.
  Proof.
    unfold d2L. now rewrite phi_mul, phi_of_Z, phi_sub, phi_mul, phi_of_Z, phi_pow.
  Qed.

Lemma phi_step x b y : phi (Newton.step x b y) = Newton.step (phi x) b (phi y).
  Proof. unfold Newton.step. now rewrite phi_sub, phi_div, phi_d1L, phi_d2L. Qed.

Lemma len_lt_map (l : list A) m : len_lt (map phi l) m = len_lt l m.
  Proof. unfold len_lt. now rewrite length_map. Qed.

Lemma transfer_newton_loop x b tol m : forall f s,
    map_result (fun s' => Newton.mk_state (phi (Newton.x_k s')) (map phi (Newton.x_list s')))
      (Newton.loop f x b tol m s)
    = Newton.loop f (phi x) b (phi tol) m
        (Newton.mk_state (phi (Newton.x_k s)) (map phi (Newton.x_list s))).
  Proof.
    induction f as [|f IH]; intros [y l]; [reflexivity|]. simpl.
    unfold Newton.cond; simpl. rewrite <- phi_d1L, phi_ltb, len_lt_map.
    destruct (py_ltb tol (d1L y x b) && len_lt l m); [|reflexivity].
    unfold Newton.body, py_truediv; simpl.
    rewrite <- phi_d2L, <- (phi_of_Z 0), phi_eqb.
    destruct (py_eqb (d2L y x b) (py_of_Z 0)); [reflexivity|].
    rewrite IH. simpl. rewrite map_app. simpl.
    now rewrite phi_sub, phi_div, phi_d1L, phi_d2L.
  Qed.

Lemma transfer_root_newton x b tol m :
    map_result (map phi) (Newton.root_newton x b tol m)
    = Newton.root_newton (phi x) b (phi tol) m.
  Proof.
    unfold Newton.root_newton, Newton.init.
    pose proof (transfer_newton_loop x b tol m (Z.to_nat m)
                  (Newton.mk_state (py_div x (py_of_Z 2)) [py_div x (py_of_Z 2)])) as E.
    simpl in E. rewrite phi_div, phi_of_Z in E. rewrite <- E.
    now destruct (Newton.loop _ _ _ _ _ _).
  Qed.

Lemma transfer_binary_loop x b tol m : forall f s,
    (let s' := Binary.loop f x b tol m s in
     Binary.mk_state (phi (Binary.high s')) (phi (Binary.low s'))
       (phi (Binary.mean s')) (map phi (Binary.x_list s')))
    = Binary.loop f (phi x) b (phi tol) m
        (Binary.mk_state (phi (Binary.high s)) (phi (Binary.low s))
           (phi (Binary.mean s)) (map phi (Binary.x_list s))).
  Proof.
    induction f as [|f IH]; intros [h lo mu l]; [reflexivity|]. simpl.
    unfold Binary.cond; simpl.
    rewrite <- phi_pow, <- phi_sub, <- phi_abs, phi_ltb, len_lt_map.
    destruct (py_ltb tol (py_abs (py_sub (py_pow mu b) x)) && len_lt l m);
      [|reflexivity].
    rewrite IH. f_equal. unfold Binary.body; simpl.
    rewrite <- phi_add, <- (phi_of_Z 2), <- phi_div, <- phi_pow, phi_ltb.
    destruct (py_ltb x (py_pow (py_div (py_add h lo) (py_of_Z 2)) b));
      simpl; now rewrite map_app.
  Qed.

Lemma transfer_root_binary x b tol m :
    map phi (Binary.root_binary x b tol m) = Binary.root_binary (phi x) b (phi tol) m.
  Proof.
    unfold Binary.root_binary, Binary.init.
    pose proof (transfer_binary_loop x b tol m (Z.to_nat m)
      (Binary.mk_state (py_div x (py_of_Z 2)) (py_of_Z 0)
         (py_div (py_add (py_div x (py_of_Z 2)) (py_of_Z 0)) (py_of_Z 2))
         [py_div (py_add (py_div x (py_of_Z 2)) (py_of_Z 0)) (py_of_Z 2)])) as E.
    simpl in E. repeat rewrite ?phi_div, ?phi_add, ?phi_of_Z in E.
    rewrite <- E. reflexivity.
  Qed.
End Transfer.

(** ** [bigQ_to_R] commutes with the interface *)

Section BigQToR.
Local Open Scope R_scope.

Lemma bigQ_to_R_add a c : bigQ_to_R (py_add a c) = py_add (bigQ_to_R a) (bigQ_to_R c).
  Proof. unfold bigQ_to_R; simpl. rewrite <- Q2R_plus. apply Qeq_eqR, BigQ.spec_add_norm. Qed.

Lemma bigQ_to_R_sub a c : bigQ_to_R (py_sub a c) = py_sub (bigQ_to_R a) (bigQ_to_R c).
  Proof. unfold bigQ_to_R; simpl. rewrite <- Q2R_minus. apply Qeq_eqR, BigQ.spec_sub_norm. Qed.

Lemma bigQ_to_R_mul a c : bigQ_to_R (py_mul a c) = py_mul (bigQ_to_R a) (bigQ_to_R c).
  Proof. unfold bigQ_to_R; simpl. rewrite <- Q2R_mult. apply Qeq_eqR, BigQ.spec_mul_norm. Qed.

Lemma bigQ_to_R_div a c : bigQ_to_R (py_div a c) = py_div (bigQ_to_R a) (bigQ_to_R c).
  Proof.
    unfold bigQ_to_R; simpl. rewrite (Qeq_eqR _ _ (BigQ.spec_div_norm a c)).
    destruct (Qeq_dec (BigQ.to_Q c) 0) as [Hz|Hz].
    - assert (E : (BigQ.to_Q a / BigQ.to_Q c == 0)%Q)
        by (unfold Qdiv; rewrite Hz; apply Qmult_0_r).
      rewrite (Qeq_eqR _ _ E), (Qeq_eqR _ _ Hz).
      replace (Q2R 0) with 0 by (unfold Q2R; simpl; field).
      unfold Rdiv. rewrite Rinv_0. ring.
    - now apply Q2R_div.
  Qed.

Lemma bigQ_to_R_of_Z z : bigQ_to_R (py_of_Z z) = py_of_Z z.
  Proof.
    unfold bigQ_to_R; simpl. unfold BigQ.of_Z, BigQ.to_Q.
    rewrite BigZ.spec_of_Z. unfold Q2R; simpl. field.
  Qed.

Lemma bigQ_ltb_spec a c : bigQ_ltb a c = true <-> (BigQ.to_Q a < BigQ.to_Q c)%Q.
  Proof.
    unfold bigQ_ltb. rewrite BigQ.spec_compare. unfold Qlt, Qcompare.
    destruct (Z.compare_spec (Qnum (BigQ.to_Q a) * QDen (BigQ.to_Q c))
                             (Qnum (BigQ.to_Q c) * QDen (BigQ.to_Q a)));
      split; intros; try lia; try discriminate; reflexivity.
  Qed.

Lemma R_ltb_spec (a c : R) : py_ltb a c = true <-> a < c.
  Proof. simpl. destruct (Rlt_dec a c); split; intros; auto; discriminate. Qed.


Lemma R_eqb_spec (a c : R) : py_eqb a c = true <-> a = c.
  Proof. simpl. destruct (Req_dec_T a c); split; intros; auto; discriminate. Qed.

Lemma bigQ_to_R_ltb a c : py_ltb (bigQ_to_R a) (bigQ_to_R c) = py_ltb a c.
  Proof.
    apply eq_true_iff_eq. rewrite R_ltb_spec. simpl. rewrite bigQ_ltb_spec.
    unfold bigQ_to_R. split; [apply Rlt_Qlt | apply Qlt_Rlt].
  Qed.

Lemma bigQ_to_R_eqb a c : py_eqb (bigQ_to_R a) (bigQ_to_R c) = py_eqb a c.
  Proof.
    apply eq_true_iff_eq. rewrite R_eqb_spec. simpl. rewrite BigQ.spec_eq_bool, Qeq_bool_iff.
    unfold bigQ_to_R. split; [apply eqR_Qeq | apply Qeq_eqR].
  Qed.

Lemma bigQ_to_R_abs a : bigQ_to_R (py_abs a) = py_abs (bigQ_to_R a).
  Proof.
    simpl. destruct (bigQ_ltb a (BigQ.of_Z 0)) eqn:Hl.
    - assert (Hr : py_ltb (bigQ_to_R a) (bigQ_to_R (py_of_Z 0)) = true)
        by (rewrite bigQ_to_R_ltb; exact Hl).
      apply R_ltb_spec in Hr. rewrite bigQ_to_R_of_Z in Hr. simpl in Hr.
      rewrite Rabs_left by exact Hr.
      unfold bigQ_to_R. rewrite (Qeq_eqR _ _ (BigQ.spec_opp a)), Q2R_opp. reflexivity.
    - rewrite Rabs_right; [reflexivity|].
      apply Rnot_lt_ge. intros Hlt.
      assert (Hr : py_ltb (bigQ_to_R a) (bigQ_to_R (py_of_Z 0)) = true).
      { apply R_ltb_spec. rewrite bigQ_to_R_of_Z. exact Hlt. }
      rewrite bigQ_to_R_ltb in Hr. simpl in Hr. congruence.
  Qed.

Lemma bigQ_to_R_d1L y x b : bigQ_to_R (d1L y x b) = d1L (bigQ_to_R y) (bigQ_to_R x) b.
  Proof.
    apply phi_d1L; auto using bigQ_to_R_add, bigQ_to_R_sub, bigQ_to_R_mul,
      bigQ_to_R_div, bigQ_to_R_of_Z, bigQ_to_R_ltb, bigQ_to_R_eqb, bigQ_to_R_abs.
  Qed.

Lemma bigQ_to_R_step x b y :
    bigQ_to_R (Newton.step x b y) = Newton.step (bigQ_to_R x) b (bigQ_to_R y).
  Proof.
    apply phi_step; auto using bigQ_to_R_add, bigQ_to_R_sub, bigQ_to_R_mul,
      bigQ_to_R_div, bigQ_to_R_of_Z, bigQ_to_R_ltb, bigQ_to_R_eqb, bigQ_to_R_abs.
  Qed.

Lemma bigQ_ltb_R a c : bigQ_ltb a c = true -> bigQ_to_R a < bigQ_to_R c.
  Proof. intros E. apply R_ltb_spec. rewrite bigQ_to_R_ltb. exact E. Qed.

Lemma bigQ_leb_R a c : bigQ_leb a c = true -> bigQ_to_R a <= bigQ_to_R c.
  Proof.
    unfold bigQ_leb. intros E. apply Rnot_lt_le. intros Hlt.
    apply R_ltb_spec in Hlt. rewrite bigQ_to_R_ltb in Hlt. simpl in Hlt.
    rewrite Hlt in E. discriminate.
  Qed.

Lemma bigQ_to_R_q z : bigQ_to_R (q z) = IZR z.
  Proof. apply bigQ_to_R_of_Z. Qed.

Lemma bigQ_root_newton x b tol m :
    map_result (map bigQ_to_R) (Newton.root_newton x b tol m)
    = Newton.root_newton (bigQ_to_R x) b (bigQ_to_R tol) m.
  Proof.
    apply transfer_root_newton; auto using bigQ_to_R_add, bigQ_to_R_sub, bigQ_to_R_mul,
      bigQ_to_R_div, bigQ_to_R_of_Z, bigQ_to_R_ltb, bigQ_to_R_eqb, bigQ_to_R_abs.
  Qed.

Lemma bigQ_root_binary x b tol m :
    map bigQ_to_R (Binary.root_binary x b tol m)
    = Binary.root_binary (bigQ_to_R x) b (bigQ_to_R tol) m.
  Proof.
    apply transfer_root_binary; auto using bigQ_to_R_add, bigQ_to_R_sub, bigQ_to_R_mul,
      bigQ_to_R_div, bigQ_to_R_of_Z, bigQ_to_R_ltb, bigQ_to_R_eqb, bigQ_to_R_abs.
  Qed.
End BigQToR.

(** ** The loss functions over [R] *)

Section LossR.
Local Open Scope R_scope.

Lemma py_pow_R (y : R) n : py_pow y n = y ^ n.
  Proof. induction n as [|n IH]; simpl; [reflexivity|]. now rewrite IH. Qed.

Lemma IZR_two_b b : IZR (2 * Z.of_nat b) = 2 * INR b.
  Proof. now rewrite mult_IZR, <- INR_IZR_INZ. Qed.

Lemma L_R (y x : R) b : L y x b = (y ^ b - x) ^ 2.
  Proof. unfold L. now rewrite !py_pow_R. Qed.

Lemma d1L_R (y x : R) b : d1L y x b = 2 * INR b * (y ^ (b + 1) - x * y).
  Proof.
    rewrite <- IZR_two_b. unfold d1L. rewrite py_pow_R. reflexivity.
  Qed.

Lemma d2L_R (y x : R) b : d2L y x b = 2 * INR b * ((INR b + 1) * y ^ b - x).
  Proof.
    rewrite <- IZR_two_b, INR_IZR_INZ, <- plus_IZR. unfold d2L. rewrite py_pow_R.
    reflexivity.
  Qed.

Lemma step_R (x : R) b y : Newton.step x b y = y - d1L y x b / d2L y x b.
  Proof. reflexivity. Qed.
End LossR.

(** ** [root_newton] over [R]: the run is the sequence of Newton iterates *)

Section NewtonR.
Local Open Scope R_scope.
Variables (x : R) (b : nat) (tol : R) (max_iter : Z).
Hypothesis Hx : 0 < x.
Hypothesis Hb : (1 <= b)%nat.
Hypothesis Htol : 0 <= tol.

  (** the [k]-th value taken by [x_k] *)
Let traj (k : nat) : R := Nat.iter k (Newton.step x b) (py_div x (py_of_Z 2)).

Lemma newton_pass_pos y :
    0 < y -> tol < d1L y x b -> 0 < d2L y x b /\ 0 < Newton.step x b y.
  Proof.
    intros Hy Hd. rewrite step_R. rewrite d1L_R in *. rewrite d2L_R.
    assert (HB : 1 <= INR b) by (apply (le_INR 1); exact Hb).
    replace (b + 1)%nat with (S b) in Hd by lia. simpl in Hd.
    set (p := y ^ b) in *.
    assert (Ht : 0 < y * p - x * y).
    { destruct (Rle_or_lt (y * p - x * y) 0) as [Hn|Hn]; [|exact Hn].
      assert (2 * INR b * (y * p - x * y) <= 0); [|lra].
      nra. }
    assert (Hp : x < p) by nra.
    assert (Hd2 : 0 < 2 * INR b * ((INR b + 1) * p - x)) by nra.
    split; [exact Hd2|].
    replace (b + 1)%nat with (S b) by lia. simpl. fold p.
    assert (Hyp : 0 < INR b * INR b * (y * p))
      by (apply Rmult_lt_0_compat; [apply Rmult_lt_0_compat|]; nra).
    assert (Hlt : 2 * INR b * (y * p - x * y) < y * (2 * INR b * ((INR b + 1) * p - x))).
    { assert (E : y * (2 * INR b * ((INR b + 1) * p - x)) - 2 * INR b * (y * p - x * y)
                  = 2 * (INR b * INR b * (y * p))) by ring.
      lra. }
    assert (2 * INR b * (y * p - x * y) / (2 * INR b * ((INR b + 1) * p - x)) < y).
    { unfold Rdiv. apply (Rmult_lt_reg_r (2 * INR b * ((INR b + 1) * p - x))); [lra|].
      rewrite Rmult_assoc, Rinv_l by lra. lra. }
    lra.
  Qed.

Lemma newton_body_ok y l :
    d2L y x b <> 0 ->
    Newton.body x b (Newton.mk_state y l)
    = Ok (Newton.mk_state (Newton.step x b y) (l ++ [Newton.step x b y])).
  Proof.
    intros Hd. unfold Newton.body, py_truediv. simpl Newton.x_k.
    destruct (py_eqb (d2L y x b) (py_of_Z 0)) eqn:E; [|reflexivity].
    apply R_eqb_spec in E. contradiction.
  Qed.

Lemma traj_pos k :
    (forall j, (j < k)%nat -> tol < d1L (traj j) x b) -> 0 < traj k.
  Proof.
    induction k as [|k IH]; intros Hj.
    - simpl. lra.
    - change (traj (S k)) with (Newton.step x b (traj k)).
      apply newton_pass_pos; [apply IH; intros; apply Hj; lia | apply Hj; lia].
  Qed.

Lemma newton_loop_traj : forall f k,
    (Z.to_nat max_iter - S k <= f)%nat ->
    (forall j, (j < k)%nat -> tol < d1L (traj j) x b /\ (Z.of_nat (S j) < max_iter)%Z) ->
    exists k', (k <= k')%nat /\
      Newton.loop f x b tol max_iter (Newton.mk_state (traj k) (map traj (seq 0 (S k))))
      = Ok (Newton.mk_state (traj k') (map traj (seq 0 (S k')))) /\
      (forall j, (j < k')%nat -> tol < d1L (traj j) x b /\ (Z.of_nat (S j) < max_iter)%Z) /\
      (d1L (traj k') x b <= tol \/ (max_iter <= Z.of_nat (S k'))%Z).
  Proof.
    induction f as [|f IH]; intros k Hf Hinv.
    - exists k. split; [lia|]. split; [reflexivity|]. split; [exact Hinv|]. right. lia.
    - cbn [Newton.loop]. unfold Newton.cond. cbn [Newton.x_k Newton.x_list].
      destruct (py_ltb tol (d1L (traj k) x b)) eqn:Ed; cbn [andb].
      + destruct (len_lt (map traj (seq 0 (S k))) max_iter) eqn:El.
        * apply R_ltb_spec in Ed. apply len_lt_true in El.
          rewrite length_map, length_seq in El.
          assert (Hpos : 0 < traj k) by (apply traj_pos; intros j Hj; apply Hinv; exact Hj).
          destruct (newton_pass_pos _ Hpos Ed) as [Hd2 _].
          rewrite newton_body_ok by lra.
          destruct (IH (S k)) as [k' [Hk' [E [Hi Hs]]]].
          { lia. }
          { intros j Hj. destruct (Nat.eq_dec j k) as [->|Hne]; [split; assumption|].
            apply Hinv. lia. }
          exists k'. split; [lia|]. split; [|split; assumption].
          etransitivity; [|exact E]. f_equal. f_equal. rewrite (seq_S (S k)), map_app. reflexivity.
        * exists k. split; [lia|]. split; [reflexivity|]. split; [exact Hinv|].
          right. apply len_lt_false_ge in El. rewrite length_map, length_seq in El. lia.
      + exists k. split; [lia|]. split; [reflexivity|]. split; [exact Hinv|].
        left. apply Rnot_lt_le. intros Hc. apply R_ltb_spec in Hc. congruence.
  Qed.
End NewtonR.

Section Trajectories.
Local Open Scope R_scope.

Lemma nth_map_seq (f : nat -> R) n j :
    (j < n)%nat -> nth j (map f (seq 0 n)) 0 = f j.
  Proof.
    intros Hj. rewrite nth_indep with (d' := f 0%nat) by (rewrite length_map, length_seq; lia).
    rewrite map_nth, seq_nth by lia. reflexivity.
  Qed.

Lemma last_map_seq (f : nat -> R) k : last (map f (seq 0 (S k))) 0 = f k.
  Proof. rewrite seq_S, map_app. apply last_last. Qed.

  (** [root_newton] returns the first [k+1] Newton iterates from [x/2],
      where [k] is the first pass whose test fails. *)
Lemma root_newton_run x b tol max_iter :
    0 < x -> (1 <= b)%nat -> 0 <= tol ->
    exists k,
      Newton.root_newton x b tol max_iter
      = Ok (map (fun j => Nat.iter j (Newton.step x b) (x / 2)) (seq 0 (S k))) /\
      (forall j, (j < k)%nat ->
         tol < d1L (Nat.iter j (Newton.step x b) (x / 2)) x b /\
         (Z.of_nat (S j) < max_iter)%Z) /\
      (d1L (Nat.iter k (Newton.step x b) (x / 2)) x b <= tol \/
       (max_iter <= Z.of_nat (S k))%Z).
  Proof.
    intros Hx Hb Ht.
    destruct (newton_loop_traj x b tol max_iter Hx Hb Ht (Z.to_nat max_iter) 0)
      as [k [_ [E [Hi Hs]]]]; [lia | intros; lia |].
    exists k. split; [|split; assumption].
    unfold Newton.root_newton. unfold Newton.init. cbn zeta.
    change (Newton.mk_state (py_div x (py_of_Z 2)) [py_div x (py_of_Z 2)]) with
      (Newton.mk_state (Nat.iter 0 (Newton.step x b) (py_div x (py_of_Z 2)))
         (map (fun j => Nat.iter j (Newton.step x b) (py_div x (py_of_Z 2))) (seq 0 1))).
    rewrite E. reflexivity.
  Qed.
End Trajectories.

(** ** [root_binary]: the run is the sequence of loop states *)

Section BinaryRun.
Context {A : Type} `{PyNum A}.
Variables (x : A) (b : nat) (tol : A) (max_iter : Z).


Lemma binary_states_list k :
    Binary.x_list (Binary.after x b k) = map (fun j => Binary.mean (Binary.after x b j)) (seq 0 (S k)).
  Proof.
    induction k as [|k IH]; [reflexivity|].
    change (Binary.after x b (S k)) with (Binary.body x b (Binary.after x b k)).
    rewrite binary_body_append, IH, (seq_S (S k)), map_app. reflexivity.
  Qed.

Lemma binary_loop_states : forall f k,
    (Z.to_nat max_iter - S k <= f)%nat ->
    exists k', (k <= k')%nat /\
      Binary.loop f x b tol max_iter (Binary.after x b k) = (Binary.after x b k') /\
      (forall j, (k <= j < k')%nat -> Binary.cond x b tol max_iter (Binary.after x b j) = true) /\
      Binary.cond x b tol max_iter (Binary.after x b k') = false.
  Proof.
    induction f as [|f IH]; intros k Hf.
    - exists k. split; [lia|]. split; [reflexivity|]. split; [intros; lia|].
      unfold Binary.cond. apply andb_false_intro2.
      apply Z.ltb_ge. rewrite binary_states_list, length_map, length_seq. lia.
    - cbn [Binary.loop].
      destruct (Binary.cond x b tol max_iter (Binary.after x b k)) eqn:Ec.
      + pose proof (binary_cond_len _ _ _ _ _ Ec) as Hl.
        rewrite binary_states_list, length_map, length_seq in Hl.
        destruct (IH (S k)) as [k' [Hk [E [Hi Hs]]]]; [lia|].
        exists k'. split; [lia|]. split; [exact E|]. split; [|exact Hs].
        intros j Hj. destruct (Nat.eq_dec j k) as [->|Hne]; [exact Ec|]. apply Hi. lia.
      + exists k. split; [lia|]. split; [reflexivity|]. split; [intros; lia|exact Ec].
  Qed.

Lemma root_binary_states : exists k,
    Binary.root_binary x b tol max_iter = map (fun j => Binary.mean (Binary.after x b j)) (seq 0 (S k)) /\
    (forall j, (j < k)%nat -> Binary.cond x b tol max_iter (Binary.after x b j) = true) /\
    Binary.cond x b tol max_iter (Binary.after x b k) = false.
  Proof.
    destruct (binary_loop_states (Z.to_nat max_iter) 0) as [k [_ [E [Hi Hs]]]]; [lia|].
    exists k. split; [|split; [intros j Hj; apply Hi; lia | exact Hs]].
    unfold Binary.root_binary. change (Binary.init x) with (Binary.after x b 0).
    rewrite E. apply binary_states_list.
  Qed.
End BinaryRun.

Section BinaryR.
Local Open Scope R_scope.


Lemma binary_cond_R (x : R) b tol m s :
    Binary.cond x b tol m s = true <->
    tol < Rabs (Binary.mean s ^ b - x) /\ (Z.of_nat (length (Binary.x_list s)) < m)%Z.
  Proof.
    unfold Binary.cond. rewrite andb_true_iff, R_ltb_spec.
    unfold len_lt. rewrite Z.ltb_lt. simpl py_abs. rewrite py_pow_R. reflexivity.
  Qed.
End BinaryR.

(** ** Real-analysis facts about the loss *)

Section Analysis.
Local Open Scope R_scope.

Lemma derivable_pt_lim_ext_fun f g (y l : R) :
    (forall t, f t = g t) -> derivable_pt_lim g y l -> derivable_pt_lim f y l.
  Proof.
    intros E H eps Heps. destruct (H eps Heps) as [d Hd]. exists d.
    intros h Hh Hl. rewrite !E. apply Hd; assumption.
  Qed.

  (** the derivative of [L] in [x_k], by the chain rule *)
Lemma L_derivative (x y : R) b :
    derivable_pt_lim (fun t => L t x b) y (2 * (y ^ b - x) * (INR b * y ^ pred b)).
  Proof.
    apply derivable_pt_lim_ext_fun
      with (g := comp (fun u => u ^ 2) (minus_fct (fun t => t ^ b) (fct_cte x))).
    { intros t. unfold comp, minus_fct, fct_cte. now rewrite L_R. }
    replace (2 * (y ^ b - x) * (INR b * y ^ pred b))
      with (INR 2 * (minus_fct (fun t => t ^ b) (fct_cte x) y) ^ pred 2 * (INR b * y ^ pred b - 0))
      by (unfold minus_fct, fct_cte; simpl; ring).
    apply derivable_pt_lim_comp; [|apply derivable_pt_lim_pow].
    apply derivable_pt_lim_minus; [apply derivable_pt_lim_pow | apply derivable_pt_lim_const].
  Qed.

Lemma pow_lt_strict (a c : R) n : 0 <= a < c -> (1 <= n)%nat -> a ^ n < c ^ n.
  Proof.
    intros Hac Hn. destruct n as [|n]; [lia|]. simpl.
    assert (a ^ n <= c ^ n) by (apply pow_incr; lra).
    assert (0 < c ^ n) by (apply pow_lt; lra).
    assert (0 <= a ^ n) by (apply pow_le; lra).
    nra.
  Qed.

  (** [x <= 2^(b/(b-1))] compares [x^(b-1)] with [2^b] *)
Lemma threshold_pow (x : R) b :
    (2 <= b)%nat -> 0 < x ->
    (Rpower 2 (INR b / INR (b - 1)) <= x <-> 2 ^ b <= x ^ (b - 1)) /\
    (x <= Rpower 2 (INR b / INR (b - 1)) <-> x ^ (b - 1) <= 2 ^ b).
  Proof.
    intros Hb Hx.
    set (t := Rpower 2 (INR b / INR (b - 1))).
    assert (Ht : 0 < t) by apply exp_pos.
    assert (Hb1 : 1 <= INR (b - 1)) by (apply (le_INR 1); lia).
    assert (Htb : t ^ (b - 1) = 2 ^ b).
    { unfold t. rewrite <- Rpower_pow by apply exp_pos. rewrite Rpower_mult.
      replace (INR b / INR (b - 1) * INR (b - 1)) with (INR b) by (field; lra).
      apply Rpower_pow. lra. }
    rewrite <- Htb.
    split; split; intros H.
    - apply pow_incr. lra.
    - destruct (Rle_or_lt t x) as [|Hlt]; [assumption|].
      assert (x ^ (b - 1) < t ^ (b - 1)) by (apply pow_lt_strict; lra || lia). lra.
    - apply pow_incr. lra.
    - destruct (Rle_or_lt x t) as [|Hlt]; [assumption|].
      assert (t ^ (b - 1) < x ^ (b - 1)) by (apply pow_lt_strict; lra || lia). lra.
  Qed.

Lemma half_pow (x : R) b :
    (1 <= b)%nat -> (x / 2) ^ b * 2 ^ b = x * x ^ (b - 1).
  Proof.
    intros Hb. rewrite <- Rpow_mult_distr.
    replace (x / 2 * 2) with x by field.
    destruct b as [|b]; [lia|]. simpl. rewrite Nat.sub_0_r. reflexivity.
  Qed.
End Analysis.

(** ** Runs that stop at once *)

Section Boundary.
Local Open Scope R_scope.

End Boundary.

(** ** Growth of the trajectory: appending only, bounded by [max_iter] *)

Section Growth.
Context {A : Type} `{PyNum A}.
Variables (x : A) (b : nat) (tol : A) (m : Z).

Lemma newton_loop_grows : forall f s s',
    Newton.loop f x b tol m s = Ok s' ->
    (exists ext, Newton.x_list s' = Newton.x_list s ++ ext) /\
    (length (Newton.x_list s') <= Nat.max (length (Newton.x_list s)) (Z.to_nat m))%nat.
  Proof.
    induction f as [|f IH]; intros s s' E; cbn [Newton.loop] in E.
    - injection E as <-. split; [exists []; symmetry; apply app_nil_r | lia].
    - destruct (Newton.cond x b tol m s) eqn:Hc; [|injection E as <-; split; [exists []; symmetry; apply app_nil_r | lia]].
      destruct (Newton.body x b s) as [s1|] eqn:Hb; [|discriminate].
      apply newton_cond_len in Hc.
      pose proof (newton_body_append _ _ _ _ Hb) as Ha.
      destruct (IH _ _ E) as [[ext Hext] Hl].
      rewrite Ha, length_app in Hl. simpl in Hl.
      split; [exists ([Newton.x_k s1] ++ ext); rewrite Hext, Ha, app_assoc; reflexivity | lia].
  Qed.

Lemma binary_loop_grows : forall f s,
    (exists ext, Binary.x_list (Binary.loop f x b tol m s) = Binary.x_list s ++ ext) /\
    (length (Binary.x_list (Binary.loop f x b tol m s))
       <= Nat.max (length (Binary.x_list s)) (Z.to_nat m))%nat.
  Proof.
    induction f as [|f IH]; intros s; cbn [Binary.loop].
    - split; [exists []; symmetry; apply app_nil_r | lia].
    - destruct (Binary.cond x b tol m s) eqn:Hc; [|split; [exists []; symmetry; apply app_nil_r | lia]].
      apply binary_cond_len in Hc.
      destruct (IH (Binary.body x b s)) as [[ext Hext] Hl].
      rewrite binary_body_append, length_app in Hl. simpl in Hl.
      rewrite binary_body_append in Hext.
      split; [exists ([Binary.mean (Binary.body x b s)] ++ ext); rewrite Hext, app_assoc; reflexivity | lia].
  Qed.
End Growth.

(** ** The notebook's input [x = 144], [b = 2] *)

Section Newton144.
Local Open Scope R_scope.

Lemma step144 (y : R) : 12 < y -> Newton.step 144 2 y = 2 * y ^ 3 / (3 * y ^ 2 - 144).
  Proof.
    intros Hy. rewrite step_R, d1L_R, d2L_R.
    replace (INR 2) with 2 by (simpl; lra). simpl. field. nra.
  Qed.

  (** the Newton map [y -> 2y^3/(3y^2-144)] is increasing above [12] *)
Lemma step144_mono (a c : R) : 12 < a -> a <= c -> Newton.step 144 2 a <= Newton.step 144 2 c.
  Proof.
    intros Ha Hac. rewrite !step144 by lra.
    assert (Hda : 0 < 3 * a ^ 2 - 144) by nra.
    assert (Hdc : 0 < 3 * c ^ 2 - 144) by nra.
    assert (Hq : 0 <= 3 * a ^ 2 * c ^ 2 - 144 * (a ^ 2 + a * c + c ^ 2)).
    { assert (144 <= a * c) by nra.
      assert (144 * c ^ 2 <= a ^ 2 * c ^ 2) by (apply Rmult_le_compat_r; nra).
      assert (144 * a ^ 2 <= a ^ 2 * c ^ 2) by (replace (a ^ 2 * c ^ 2) with (c ^ 2 * a ^ 2) by ring;
                                               apply Rmult_le_compat_r; nra).
      assert (144 * (a * c) <= a ^ 2 * c ^ 2) by (replace (a ^ 2 * c ^ 2) with ((a * c) * (a * c)) by ring;
                                                 apply Rmult_le_compat_r; nra).
      lra. }
    assert (Hkey : a ^ 3 * (3 * c ^ 2 - 144) <= c ^ 3 * (3 * a ^ 2 - 144)).
    { assert (E : c ^ 3 * (3 * a ^ 2 - 144) - a ^ 3 * (3 * c ^ 2 - 144)
                  = (c - a) * (3 * a ^ 2 * c ^ 2 - 144 * (a ^ 2 + a * c + c ^ 2))) by ring.
      assert (0 <= (c - a) * (3 * a ^ 2 * c ^ 2 - 144 * (a ^ 2 + a * c + c ^ 2)))
        by (apply Rmult_le_pos; lra).
      lra. }
    replace (2 * a ^ 3 / (3 * a ^ 2 - 144))
      with (2 * (a ^ 3 * (3 * c ^ 2 - 144)) / ((3 * a ^ 2 - 144) * (3 * c ^ 2 - 144))) by (field; lra).
    replace (2 * c ^ 3 / (3 * c ^ 2 - 144))
      with (2 * (c ^ 3 * (3 * a ^ 2 - 144)) / ((3 * a ^ 2 - 144) * (3 * c ^ 2 - 144))) by (field; lra).
    unfold Rdiv. apply Rmult_le_compat_r; [left; apply Rinv_0_lt_compat; nra | lra].
  Qed.

  (** [d1L y 144 2 = 4y(y^2 - 144)] is increasing from [12] on *)
Lemma d1L144_mono (a c : R) : 12 <= a -> a <= c -> d1L a 144 2 <= d1L c 144 2.
  Proof.
    intros Ha Hac. rewrite !d1L_R. replace (INR 2) with 2 by (simpl; lra).
    assert (E : c ^ (2 + 1) - 144 * c - (a ^ (2 + 1) - 144 * a)
                = (c - a) * (c ^ 2 + a * c + a ^ 2 - 144)) by (simpl; ring).
    assert (0 <= (c - a) * (c ^ 2 + a * c + a ^ 2 - 144)) by (apply Rmult_le_pos; nra).
    lra.
  Qed.

Lemma bounds_ok_sound : forall bs (lo hi : bigQ) (y : R),
    bigQ_ltb (q 12) lo = true -> bigQ_to_R lo <= y <= bigQ_to_R hi ->
    bounds_ok (q 144) 2 lo hi bs = true ->
    forall j, (j < length bs)%nat ->
      12 < bigQ_to_R (fst (nth j bs (q 0, q 0))) /\
      bigQ_to_R (fst (nth j bs (q 0, q 0))) <= Nat.iter (S j) (Newton.step 144 2) y
        <= bigQ_to_R (snd (nth j bs (q 0, q 0))).
  Proof.
    induction bs as [|[lo' hi'] bs IH]; intros lo hi y H12 Hy Hok j Hj; [simpl in Hj; lia|].
    cbn [bounds_ok] in Hok. rewrite !andb_true_iff in Hok.
    destruct Hok as [[[H12' Hlo] Hhi] Hok].
    pose proof H12' as H12q.
    apply bigQ_ltb_R in H12, H12'. apply bigQ_leb_R in Hlo, Hhi.
    rewrite bigQ_to_R_q in H12, H12'.
    rewrite !bigQ_to_R_step, bigQ_to_R_q in Hlo, Hhi.
    assert (Hy' : bigQ_to_R lo' <= Newton.step 144 2 y <= bigQ_to_R hi').
    { split.
      - apply Rle_trans with (1 := Hlo). apply step144_mono; lra.
      - apply Rle_trans with (2 := Hhi). apply step144_mono; lra. }
    destruct j as [|j].
    - cbn [nth fst snd Nat.iter]. split; [exact H12' | exact Hy'].
    - cbn [nth]. rewrite Nat.iter_succ_r.
      apply (IH lo' hi'); [exact H12q | exact Hy' | exact Hok | simpl in Hj; lia].
  Qed.
End Newton144.

(** ** The notebook's run, [tol = 10**-9] taken as the rational [1/10^9] *)

Section Run144.
Local Open Scope R_scope.

Lemma tol_1e9_R : bigQ_to_R tol_1e9 = 1 / 10 ^ 9.
  Proof.
    unfold tol_1e9. change (BigQ.div_norm (q 1) (q (10 ^ 9))) with (py_div (q 1) (q (10 ^ 9))).
    rewrite bigQ_to_R_div, !bigQ_to_R_q, pow_IZR. reflexivity.
  Qed.

Lemma newton_144_traj j :
    (1 <= j <= 10)%nat ->
    12 < bigQ_to_R (fst (nth (j - 1) newton_144_bounds (q 0, q 0))) /\
    bigQ_to_R (fst (nth (j - 1) newton_144_bounds (q 0, q 0)))
      <= Nat.iter j (Newton.step 144 2) (144 / 2)
      <= bigQ_to_R (snd (nth (j - 1) newton_144_bounds (q 0, q 0))).
  Proof.
    intros Hj. destruct j as [|j]; [lia|]. replace (S j - 1)%nat with j by lia.
    apply (bounds_ok_sound newton_144_bounds (q 72) (q 72));
      [vm_compute; reflexivity | rewrite bigQ_to_R_q; lra | vm_compute; reflexivity | simpl; lia].
  Qed.

Lemma newton_144_pass j :
    (j <= 9)%nat -> 1 / 10 ^ 9 < d1L (Nat.iter j (Newton.step 144 2) (144 / 2)) 144 2.
  Proof.
    intros Hj. destruct j as [|j].
    { cbn [Nat.iter]. rewrite d1L_R. replace (INR 2) with 2 by (simpl; lra). simpl. lra. }
    destruct (newton_144_traj (S j)) as [H12 [Hlo _]]; [lia|].
    apply Rlt_le_trans
      with (d1L (bigQ_to_R (fst (nth (S j - 1) newton_144_bounds (q 0, q 0)))) 144 2);
      [| apply d1L144_mono; lra].
    rewrite <- tol_1e9_R, <- (bigQ_to_R_q 144), <- bigQ_to_R_d1L. apply bigQ_ltb_R.
    do 9 (destruct j as [|j]; [vm_compute; reflexivity|]). lia.
  Qed.

Lemma newton_144_stop :
    d1L (Nat.iter 10 (Newton.step 144 2) (144 / 2)) 144 2 <= 1 / 10 ^ 9 /\
    12 < Nat.iter 10 (Newton.step 144 2) (144 / 2) <= 12 + 1 / 10 ^ 9.
  Proof.
    destruct (newton_144_traj 10) as [H12 [Hlo Hhi]]; [lia|].
    cbn [Nat.sub] in H12, Hlo, Hhi.
    set (hi := snd (nth 9 newton_144_bounds (q 0, q 0))) in *.
    set (y := Nat.iter 10 (Newton.step 144 2) (144 / 2)) in *.
    assert (Hc1 : bigQ_leb (d1L hi (q 144) 2) tol_1e9 = true) by (vm_compute; reflexivity).
    assert (Hc2 : bigQ_leb (py_sub hi (q 12)) tol_1e9 = true) by (vm_compute; reflexivity).
    apply bigQ_leb_R in Hc1, Hc2.
    rewrite bigQ_to_R_d1L, bigQ_to_R_q, tol_1e9_R in Hc1.
    rewrite bigQ_to_R_sub, bigQ_to_R_q, tol_1e9_R in Hc2. simpl py_sub in Hc2.
    split; [|lra].
    apply Rle_trans with (2 := Hc1). apply d1L144_mono; lra.
  Qed.

Lemma last_map_bigQ (l : list bigQ) :
    last (map bigQ_to_R l) 0 = bigQ_to_R (last l (q 0)).
  Proof.
    induction l as [|a l IH]; [cbn [last map]; rewrite bigQ_to_R_q; reflexivity|].
    destruct l as [|c l]; [reflexivity|]. exact IH.
  Qed.
End Run144.

(** ** Binary64 rounding: the result is a double nearest to the exact value *)

Section Binary64.
Local Open Scope R_scope.

Lemma IZR_pow2 z : (0 <= z)%Z -> IZR (2 ^ z) = powerRZ 2 z.
Proof.
  intros Hz. destruct z as [|p|p]; [reflexivity| |lia].
  change (2 ^ Z.pos p)%Z with (Z.pow_pos 2 p). apply Zpower_pos_powerRZ.
Qed.

Lemma FR_eq f : FR f = IZR (Fnum f) * powerRZ 2 (Fexp f).
Proof.
  unfold FR, FQ, Q2R. destruct f as [m e]; cbn [Fnum Fexp].
  destruct e as [|p|p]; cbn [Qnum Qden inject_Z].
  - simpl. field.
  - rewrite mult_IZR, Zpower_pos_powerRZ. simpl (IZR 1). field.
  - rewrite Pos2Z.inj_pow_pos, Zpower_pos_powerRZ. reflexivity.
Qed.



Lemma bpow_pos e : 0 < bpow e.
Proof. apply powerRZ_lt. lra. Qed.

Lemma bpow_add e1 e2 : bpow (e1 + e2) = bpow e1 * bpow e2.
Proof. apply powerRZ_add. lra. Qed.

Lemma bpow_nonneg_IZR e : (0 <= e)%Z -> bpow e = IZR (2 ^ e).
Proof. intros. unfold bpow. rewrite IZR_pow2; auto. Qed.

Lemma bpow_ge1 e : (0 <= e)%Z -> 1 <= bpow e.
Proof.
  intros He. rewrite bpow_nonneg_IZR by exact He. apply IZR_le.
  assert (0 < 2 ^ e)%Z by (apply Z.pow_pos_nonneg; lia). lia.
Qed.

Lemma bpow_le e1 e2 : (e1 <= e2)%Z -> bpow e1 <= bpow e2.
Proof.
  intros H. replace e2 with (e1 + (e2 - e1))%Z by lia. rewrite bpow_add.
  pose proof (bpow_pos e1). pose proof (bpow_ge1 (e2 - e1) ltac:(lia)). nra.
Qed.

Lemma bpow_opp e : bpow (- e) = / bpow e.
Proof. apply powerRZ_neg'. Qed.

Lemma log2_q_spec p d : (0 < p)%Z -> (0 < d)%Z ->
  bpow (log2_q p d) <= IZR p / IZR d < bpow (log2_q p d + 1).
Proof.
  intros Hp Hd. unfold log2_q.
  set (a := (Z.log2 d + 1)%Z).
  assert (Ha : (0 <= a)%Z) by (pose proof (Z.log2_nonneg d); lia).
  assert (Hda : (d < 2 ^ a)%Z) by (apply Z.log2_spec; lia).
  assert (H2a : (0 < 2 ^ a)%Z) by (apply Z.pow_pos_nonneg; lia).
  set (t := (p * 2 ^ a / d)%Z).
  assert (Ht1 : (1 <= t)%Z).
  { unfold t. apply Z.div_le_lower_bound; nia. }
  destruct (Z.log2_spec t ltac:(lia)) as [Hlo Hhi].
  set (n := Z.log2 t) in *.
  assert (Hn : (0 <= n)%Z) by apply Z.log2_nonneg.
  assert (Ht2 : (d * t <= p * 2 ^ a)%Z) by (apply Z.mul_div_le; lia).
  assert (Ht3 : (p * 2 ^ a < d * (t + 1))%Z).
  { unfold t. pose proof (Z.mul_succ_div_gt (p * 2 ^ a) d Hd). lia. }
  assert (Hlo' : (d * 2 ^ n <= p * 2 ^ a)%Z) by nia.
  assert (Hhi' : (p * 2 ^ a < d * 2 ^ (n + 1))%Z) by nia.
  apply IZR_le in Hlo'. apply IZR_lt in Hhi'.
  rewrite !mult_IZR in Hlo', Hhi'.
  rewrite <- !bpow_nonneg_IZR in Hlo', Hhi' by lia.
  assert (Hdr : 0 < IZR d) by (apply IZR_lt; lia).
  pose proof (bpow_pos a) as Hpa.
  replace (n - a + 1)%Z with ((n + 1) + - a)%Z by lia.
  replace (n - a)%Z with (n + - a)%Z by lia.
  rewrite !bpow_add, !bpow_opp.
  split.
  - apply Rmult_le_reg_r with (IZR d * bpow a); [nra|].
    field_simplify; [|lra|lra]. lra.
  - apply Rmult_lt_reg_r with (IZR d * bpow a); [nra|].
    rewrite bpow_add in Hhi'. field_simplify; [|lra|lra]. lra.
Qed.

Lemma round_pos_spec p d : (0 < p)%Z -> (0 < d)%Z ->
  exists m r D, (0 < D)%Z /\ (0 <= r < D)%Z /\
    IZR p / IZR d = (IZR m + IZR r / IZR D) * bpow (Fexp (round_pos p d)) /\
    (Fnum (round_pos p d) = m \/ Fnum (round_pos p d) = m + 1)%Z /\
    ((2 * r < D)%Z -> Fnum (round_pos p d) = m) /\
    ((D < 2 * r)%Z -> Fnum (round_pos p d) = (m + 1)%Z) /\
    (0 <= m)%Z /\ (m + 1 <= 2 ^ prec)%Z /\ (emin <= Fexp (round_pos p d))%Z /\
    ((emin < Fexp (round_pos p d))%Z -> (2 ^ (prec - 1) <= m)%Z).
Proof.
  intros Hp Hd.
  pose proof (log2_q_spec p d Hp Hd) as [HL1 HL2].
  unfold round_pos. cbn [Fnum Fexp].
  set (L := log2_q p d) in *.
  set (k := Z.max emin (L - (prec - 1))).
  set (num := if (0 <=? k)%Z then p else (p * 2 ^ (- k))%Z).
  set (den := if (0 <=? k)%Z then (d * 2 ^ k)%Z else d).
  assert (Hden : (0 < den)%Z).
  { unfold den. destruct (Z.leb_spec 0 k); [|lia].
    assert (0 < 2 ^ k)%Z by (apply Z.pow_pos_nonneg; lia). lia. }
  assert (Hnum : (0 < num)%Z).
  { unfold num. destruct (Z.leb_spec 0 k); [lia|].
    assert (0 < 2 ^ (- k))%Z by (apply Z.pow_pos_nonneg; lia). lia. }
  assert (Hv : IZR p / IZR d = IZR num / IZR den * bpow k).
  { unfold num, den. assert (0 < IZR d) by (apply IZR_lt; lia).
    destruct (Z.leb_spec 0 k) as [Hk|Hk].
    - rewrite mult_IZR, <- bpow_nonneg_IZR by exact Hk.
      pose proof (bpow_pos k). field. lra.
    - rewrite mult_IZR, <- bpow_nonneg_IZR by lia. rewrite bpow_opp.
      pose proof (bpow_pos k). field. lra. }
  set (m := (num / den)%Z). set (r := (num mod den)%Z).
  assert (Hdm : num = (den * m + r)%Z) by (apply Z_div_mod_eq_full).
  assert (Hr : (0 <= r < den)%Z) by (apply Z.mod_pos_bound; lia).
  assert (Hm0 : (0 <= m)%Z) by (apply Z.div_pos; lia).
  assert (Hv' : IZR p / IZR d = (IZR m + IZR r / IZR den) * bpow k).
  { rewrite Hv, Hdm, plus_IZR, mult_IZR. assert (0 < IZR den) by (apply IZR_lt; lia).
    field. lra. }
  assert (Hu : 0 < bpow k) by apply bpow_pos.
  assert (HrD : 0 <= IZR r / IZR den < 1).
  { assert (0 < IZR den) by (apply IZR_lt; lia).
    destruct Hr as [Hr1 Hr2]. apply IZR_le in Hr1. apply IZR_lt in Hr2.
    split; [unfold Rdiv; apply Rmult_le_pos; [lra|apply Rlt_le, Rinv_0_lt_compat; lra]|]. apply Rmult_lt_reg_r with (IZR den); [lra|]. unfold Rdiv. rewrite Rmult_assoc, Rinv_l by lra. lra. }
  exists m, r, den. split; [exact Hden|]. split; [exact Hr|]. split; [exact Hv'|].
  split; [destruct (2 * r ?= den)%Z; [destruct (Z.even m)| |]; auto|].
  split; [intros Hlt; destruct (Z.compare_spec (2 * r) den); [lia|reflexivity|lia]|].
  split; [intros Hlt; destruct (Z.compare_spec (2 * r) den); [lia|lia|reflexivity]|].
  split; [exact Hm0|].
  split.
  - (* v < 2^53 u *)
    assert (Hb : bpow (L + 1) <= bpow (prec + k)) by (apply bpow_le; unfold k, prec, emin in *; lia).
    rewrite (bpow_add prec k), (bpow_nonneg_IZR prec) in Hb by (unfold prec; lia).
    assert (IZR m * bpow k < IZR (2 ^ prec) * bpow k).
    { apply Rle_lt_trans with (IZR p / IZR d); [rewrite Hv'; nra|lra]. }
    assert (Hm2 : IZR m < IZR (2 ^ prec)) by (apply Rmult_lt_reg_r with (bpow k); lra).
    apply lt_IZR in Hm2. lia.
  - split; [unfold k; lia|].
    intros Hk.
    assert (Ek : k = (L - (prec - 1))%Z) by (unfold k in *; lia).
    assert (Hb : bpow (prec - 1 + k) <= bpow L) by (apply bpow_le; lia).
    rewrite (bpow_add (prec - 1) k), (bpow_nonneg_IZR (prec - 1)) in Hb by (unfold prec; lia).
    assert (IZR (2 ^ (prec - 1)) * bpow k < (IZR m + 1) * bpow k).
    { apply Rle_lt_trans with (IZR p / IZR d); [lra|rewrite Hv'; nra]. }
    assert (Hm2 : IZR (2 ^ (prec - 1)) < IZR m + 1) by (apply Rmult_lt_reg_r with (bpow k); lra).
    rewrite <- plus_IZR in Hm2. apply lt_IZR in Hm2. lia.
Qed.

Lemma FR_bpow f : FR f = IZR (Fnum f) * bpow (Fexp f).
Proof. apply FR_eq. Qed.

Lemma float_not_between (m k : Z) f : is_float f -> (emin <= k)%Z ->
  ((emin < k)%Z -> (2 ^ (prec - 1) <= m)%Z) -> (0 <= m)%Z ->
  ~ (IZR m * bpow k < FR f < (IZR m + 1) * bpow k).
Proof.
  intros [HM HE] Hk Hm Hm0 [H1 H2]. rewrite FR_bpow in H1, H2.
  destruct f as [M E]; cbn [Fnum Fexp] in *.
  pose proof (bpow_pos k) as Hu.
  destruct (Z_le_gt_dec k E) as [HkE|HkE].
  - replace E with (k + (E - k))%Z in H1, H2 by lia.
    rewrite bpow_add, (bpow_nonneg_IZR (E - k)) in H1, H2 by lia.
    assert (A1 : IZR m < IZR (M * 2 ^ (E - k))).
    { rewrite mult_IZR. apply Rmult_lt_reg_r with (bpow k); [exact Hu|]. lra. }
    assert (A2 : IZR (M * 2 ^ (E - k)) < IZR (m + 1)).
    { rewrite mult_IZR, plus_IZR. apply Rmult_lt_reg_r with (bpow k); [exact Hu|]. lra. }
    apply lt_IZR in A1, A2. lia.
  - specialize (Hm ltac:(lia)).
    assert (HbE : bpow E <= bpow (k - 1)) by (apply bpow_le; lia).
    assert (Hk1 : bpow k = 2 * bpow (k - 1)).
    { replace k with (1 + (k - 1))%Z at 1 by lia. rewrite bpow_add. unfold bpow at 1. simpl. ring. }
    assert (HM' : IZR M <= IZR (2 ^ prec)) by (apply IZR_le; lia).
    assert (Hp : IZR (2 ^ prec) = 2 * IZR (2 ^ (prec - 1))).
    { rewrite <- mult_IZR. f_equal. }
    apply IZR_le in Hm.
    pose proof (bpow_pos E). pose proof (bpow_pos (k - 1)).
    assert (IZR M * bpow E <= IZR (2 ^ prec) * bpow (k - 1)).
    { destruct (Rle_or_lt 0 (IZR M)).
      - apply Rmult_le_compat; lra.
      - assert (0 <= IZR (2 ^ prec)) by (apply IZR_le; apply Z.pow_nonneg; lia). nra. }
    nra.
Qed.

Lemma round_pos_nearest p d f : (0 < p)%Z -> (0 < d)%Z -> is_float f ->
  Rabs (IZR p / IZR d - FR (round_pos p d)) <= Rabs (IZR p / IZR d - FR f).
Proof.
  intros Hp Hd Hf.
  destruct (round_pos_spec p d Hp Hd)
    as [m [r [D [HD [Hr [Hv [Hm' [Hlt [Hgt [Hm0 [Hm53 [Hk Hk52]]]]]]]]]]]].
  rewrite FR_bpow.
  set (k := Fexp (round_pos p d)) in *. set (m' := Fnum (round_pos p d)) in *.
  set (v := IZR p / IZR d) in *.
  set (s := IZR r / IZR D) in *.
  pose proof (bpow_pos k) as Hu. set (u := bpow k) in *.
  assert (HDr : 0 < IZR D) by (apply IZR_lt; lia).
  assert (Hs : 0 <= s < 1).
  { destruct Hr as [Hr1 Hr2]. apply IZR_le in Hr1. apply IZR_lt in Hr2. unfold s.
    split; [unfold Rdiv; apply Rmult_le_pos; [lra|apply Rlt_le, Rinv_0_lt_compat; lra]|].
    apply Rmult_lt_reg_r with (IZR D); [lra|]. unfold Rdiv.
    rewrite Rmult_assoc, Rinv_l by lra. lra. }
  assert (Hsr : IZR r = s * IZR D) by (unfold s; field; lra).
  assert (Hbest : Rabs (v - IZR m' * u) <= s * u /\ Rabs (v - IZR m' * u) <= (1 - s) * u).
  { destruct (Z.lt_trichotomy (2 * r) D) as [H|[H|H]].
    - rewrite (Hlt H). apply IZR_lt in H. rewrite mult_IZR in H.
      rewrite Hv. replace ((IZR m + s) * u - IZR m * u) with (s * u) by ring.
      rewrite Rabs_right by nra. split; nra.
    - destruct Hm' as [E|E]; rewrite E; [|rewrite plus_IZR]; apply f_equal with (f := IZR) in H;
        rewrite mult_IZR in H; rewrite Hv.
      + replace ((IZR m + s) * u - IZR m * u) with (s * u) by ring.
        rewrite Rabs_right by nra. split; nra.
      + replace ((IZR m + s) * u - (IZR m + 1) * u) with (- ((1 - s) * u)) by ring.
        rewrite Rabs_Ropp, Rabs_right by nra. split; nra.
    - rewrite (Hgt H). apply IZR_lt in H. rewrite mult_IZR in H. rewrite plus_IZR, Hv.
      replace ((IZR m + s) * u - (IZR m + 1) * u) with (- ((1 - s) * u)) by ring.
      rewrite Rabs_Ropp, Rabs_right by nra. split; nra. }
  pose proof (float_not_between m k f Hf Hk Hk52 Hm0) as Hnb.
  assert (Hsu : 0 <= s * u) by nra. assert (Hsu' : 0 <= (1 - s) * u) by nra.
  destruct (Rle_or_lt (FR f) (IZR m * u)) as [Hf1|Hf1].
  - assert (v - FR f >= s * u) by (rewrite Hv; nra).
    rewrite (Rabs_right (v - FR f)) by lra. lra.
  - destruct (Rle_or_lt ((IZR m + 1) * u) (FR f)) as [Hf2|Hf2]; [|exfalso; apply Hnb; split; assumption].
    assert (FR f - v >= (1 - s) * u) by (rewrite Hv; nra).
    rewrite (Rabs_minus_sym v (FR f)), (Rabs_right (FR f - v)) by lra. lra.
Qed.

Lemma round_pos_is_float p d : (0 < p)%Z -> (0 < d)%Z -> is_float (round_pos p d).
Proof.
  intros Hp Hd.
  destruct (round_pos_spec p d Hp Hd)
    as [m [r [D [HD [Hr [Hv [Hm' [Hlt [Hgt [Hm0 [Hm53 [Hk Hk52]]]]]]]]]]]].
  split; [|exact Hk]. destruct Hm' as [E|E]; rewrite E; lia.
Qed.

Lemma round_is_float q : is_float (round q).
Proof.
  unfold round. destruct (Qred q) as [n den]. cbn [Qnum Qden].
  destruct n as [|p|p].
  - split; cbn; [lia|unfold emin; lia].
  - apply round_pos_is_float; lia.
  - pose proof (round_pos_is_float (Z.pos p) (Z.pos den) ltac:(lia) ltac:(lia)) as [H1 H2].
    split; cbn [Fnum Fexp]; [rewrite Z.abs_opp|]; assumption.
Qed.

Lemma FR_neg m e : FR (Float (- m) e) = - FR (Float m e).
Proof. rewrite !FR_bpow. cbn [Fnum Fexp]. rewrite opp_IZR. ring. Qed.

Lemma is_float_neg m e : is_float (Float m e) -> is_float (Float (- m) e).
Proof. intros [H1 H2]. split; cbn [Fnum Fexp] in *; [rewrite Z.abs_opp|]; assumption. Qed.

Lemma round_nearest q f : is_float f ->
  Rabs (Q2R q - FR (round q)) <= Rabs (Q2R q - FR f).
Proof.
  intros Hf. rewrite <- (Qeq_eqR _ _ (Qred_correct q)).
  unfold round. destruct (Qred q) as [n den]. cbn [Qnum Qden].
  unfold Q2R at 1 2. cbn [Qnum Qden].
  destruct n as [|p|p].
  - rewrite FR_bpow. cbn [Fnum Fexp]. rewrite Rmult_0_l, !Rmult_0_l, Rminus_0_r, Rabs_R0.
    apply Rabs_pos.
  - apply round_pos_nearest; [lia|lia|exact Hf].
  - destruct f as [M E].
    pose proof (round_pos_nearest (Z.pos p) (Z.pos den) (Float (- M) E) ltac:(lia) ltac:(lia)
                  (is_float_neg _ _ Hf)) as H.
    destruct (round_pos (Z.pos p) (Z.pos den)) as [m e]. cbn [Fnum Fexp].
    rewrite FR_neg. rewrite FR_neg in H.
    replace (IZR (Z.neg p) * / IZR (Z.pos den)) with (- (IZR (Z.pos p) / IZR (Z.pos den)))
      by (rewrite <- Pos2Z.opp_pos, opp_IZR; unfold Rdiv; ring).
    replace (- (IZR (Z.pos p) / IZR (Z.pos den)) - - FR (Float m e))
      with (- (IZR (Z.pos p) / IZR (Z.pos den) - FR (Float m e))) by ring.
    replace (- (IZR (Z.pos p) / IZR (Z.pos den)) - FR (Float M E))
      with (- (IZR (Z.pos p) / IZR (Z.pos den) - - FR (Float M E))) by ring.
    rewrite !Rabs_Ropp. exact H.
Qed.

Lemma round_le_float q f : is_float f -> Q2R q <= FR f -> FR (round q) <= FR f.
Proof.
  intros Hf Hq. pose proof (round_nearest q f Hf) as H.
  destruct (Rle_or_lt (FR (round q)) (FR f)) as [|Hlt]; [assumption|].
  rewrite (Rabs_left1 (Q2R q - FR (round q))) in H by lra.
  rewrite (Rabs_left1 (Q2R q - FR f)) in H by lra. lra.
Qed.

Lemma round_ge_float q f : is_float f -> FR f <= Q2R q -> FR f <= FR (round q).
Proof.
  intros Hf Hq. pose proof (round_nearest q f Hf) as H.
  destruct (Rle_or_lt (FR f) (FR (round q))) as [|Hlt]; [assumption|].
  rewrite (Rabs_right (Q2R q - FR (round q))) in H by lra.
  rewrite (Rabs_right (Q2R q - FR f)) in H by lra. lra.
Qed.

Lemma round_exact q f : is_float f -> Q2R q = FR f -> FR (round q) = FR f.
Proof.
  intros Hf Hq. apply Rle_antisym; [apply round_le_float|apply round_ge_float]; auto; lra.
Qed.


End Binary64.

(** ** The operations of [PyNum_F] on the values of doubles *)

Section FloatOps.
Local Open Scope R_scope.

Lemma Q2R_inject (z : Z) : Q2R (inject_Z z) = IZR z.
Proof. unfold Q2R, inject_Z. cbn [Qnum Qden]. simpl (IZR (Z.pos 1)). field. Qed.

Lemma zero_is_float : is_float (Float 0 0).
Proof. split; cbn; [lia|unfold emin; lia]. Qed.

Lemma FR_zero : FR (Float 0 0) = 0.
Proof. rewrite FR_bpow. cbn [Fnum Fexp]. ring. Qed.

Lemma double_is_float f : is_float f -> is_float (Float (Fnum f) (Fexp f + 1)).
Proof. intros [H1 H2]. split; cbn [Fnum Fexp]; lia. Qed.

Lemma FR_double f : FR (Float (Fnum f) (Fexp f + 1)) = 2 * FR f.
Proof.
  rewrite !FR_bpow. cbn [Fnum Fexp]. rewrite bpow_add.
  unfold bpow at 2. simpl. ring.
Qed.

Lemma FR_of_Z z : (Z.abs z <= 2 ^ prec)%Z -> FR (py_of_Z z) = IZR z.
Proof.
  intros Hz. cbn [py_of_Z PyNum_F].
  assert (Hf : is_float (Float z 0)) by (split; cbn [Fnum Fexp]; [lia|unfold emin; lia]).
  assert (E : FR (Float z 0) = IZR z) by (rewrite FR_bpow; cbn [Fnum Fexp]; unfold bpow; simpl; ring).
  rewrite (round_exact _ (Float z 0) Hf); [exact E|]. rewrite Q2R_inject. symmetry. exact E.
Qed.

Lemma FR_two : FR (py_of_Z 2) = 2.
Proof. apply FR_of_Z. unfold prec. lia. Qed.


Lemma FR_zero_Z : FR (py_of_Z 0) = 0.
Proof. apply FR_of_Z. unfold prec. lia. Qed.

Lemma Q2R_FQ_add a c : Q2R (FQ a + FQ c) = FR a + FR c.
Proof. apply Q2R_plus. Qed.



Lemma Q2R_FQ_div a c : FR c <> 0 -> Q2R (FQ a / FQ c) = FR a / FR c.
Proof.
  intros Hc. apply Q2R_div. intros E. apply Hc. unfold FR.
  rewrite (Qeq_eqR _ _ E). unfold Q2R. simpl. ring.
Qed.

Lemma Q2R_FQ_half a : Q2R (FQ a / FQ (py_of_Z 2)) = FR a / 2.
Proof. rewrite Q2R_FQ_div; rewrite FR_two; [reflexivity|lra]. Qed.




(** [(high + low) / 2] lies between [low] and [high] *)
Lemma mid_between h l : is_float h -> is_float l -> FR l <= FR h ->
  FR l <= FR (py_div (py_add h l) (py_of_Z 2)) <= FR h.
Proof.
  intros Hh Hl Hlh. cbn [py_div py_add PyNum_F].
  set (s := round (FQ h + FQ l)).
  assert (Hs1 : FR s <= 2 * FR h).
  { rewrite <- FR_double. apply round_le_float; [apply double_is_float, Hh|].
    rewrite Q2R_FQ_add, FR_double. lra. }
  assert (Hs2 : 2 * FR l <= FR s).
  { rewrite <- FR_double. apply round_ge_float; [apply double_is_float, Hl|].
    rewrite Q2R_FQ_add, FR_double. lra. }
  split.
  - apply round_ge_float; [exact Hl|]. rewrite Q2R_FQ_div by (rewrite FR_two; lra).
    rewrite FR_two. lra.
  - apply round_le_float; [exact Hh|]. rewrite Q2R_FQ_div by (rewrite FR_two; lra).
    rewrite FR_two. lra.
Qed.

End FloatOps.

(** ** The two iterators on doubles *)

Section FloatRuns.
Local Open Scope R_scope.


Lemma binary_body_cases {A : Type} `{PyNum A} (x : A) b s :
  Binary.mean (Binary.body x b s) = py_div (py_add (Binary.high s) (Binary.low s)) (py_of_Z 2) /\
  ((Binary.high (Binary.body x b s) = Binary.mean (Binary.body x b s) /\
    Binary.low (Binary.body x b s) = Binary.low s) \/
   (Binary.high (Binary.body x b s) = Binary.high s /\
    Binary.low (Binary.body x b s) = Binary.mean (Binary.body x b s))).
Proof.
  unfold Binary.body. destruct (py_ltb _ _); cbn; split; auto.
Qed.


Lemma half_nonneg (x : float) : 0 <= FR x -> 0 <= FR (py_div x (py_of_Z 2)).
Proof.
  intros Hx. rewrite <- FR_zero. apply round_ge_float; [apply zero_is_float|].
  rewrite Q2R_FQ_half, FR_zero. lra.
Qed.



(** every loop state of [root_binary] on doubles keeps
    [0 <= low <= mean <= high <= x/2], the ends being doubles *)
Lemma binary_F_states (x : float) b k : 0 <= FR x ->
  is_float (Binary.high (Binary.after x b k)) /\ is_float (Binary.low (Binary.after x b k)) /\
  0 <= FR (Binary.low (Binary.after x b k)) /\
  FR (Binary.low (Binary.after x b k)) <= FR (Binary.mean (Binary.after x b k)) /\
  FR (Binary.mean (Binary.after x b k)) <= FR (Binary.high (Binary.after x b k)) /\
  FR (Binary.high (Binary.after x b k)) <= FR (py_div x (py_of_Z 2)).
Proof.
  intros Hx. induction k as [|k IH].
  - change (Binary.after x b 0) with (Binary.init x). unfold Binary.init.
    cbn [Binary.high Binary.low Binary.mean].
    assert (Hh : is_float (py_div x (py_of_Z 2))) by apply round_is_float.
    assert (Hl : is_float (py_of_Z 0 : float)) by apply round_is_float.
    pose proof (half_nonneg x Hx) as Hh0.
    pose proof FR_zero_Z as Hz.
    destruct (mid_between (py_div x (py_of_Z 2)) (py_of_Z 0) Hh Hl ltac:(lra)) as [Hm1 Hm2].
    split; [exact Hh|]. split; [exact Hl|]. repeat split; lra.
  - change (Binary.after x b (S k)) with (Binary.body x b (Binary.after x b k)).
    set (s := Binary.after x b k) in *.
    destruct IH as [Hh [Hl [Hl0 [Hlm [Hmh Hhx]]]]].
    destruct (binary_body_cases x b s) as [Em Ecase].
    assert (Hmf : is_float (Binary.mean (Binary.body x b s))) by (rewrite Em; apply round_is_float).
    destruct (mid_between (Binary.high s) (Binary.low s) Hh Hl ltac:(lra)) as [Hm1 Hm2].
    rewrite <- Em in Hm1, Hm2.
    destruct Ecase as [[Eh El]|[Eh El]]; rewrite Eh, El.
    + split; [exact Hmf|]. split; [exact Hl|]. repeat split; lra.
    + split; [exact Hh|]. split; [exact Hmf|]. repeat split; lra.
Qed.



End FloatRuns.

(* ===================================================================== *)
(** * The claims *)
(* ===================================================================== *)

Section Claims.
Local Open Scope R_scope.





  (** C3 (the code differs from the claim): [d1L] is the derivative of the
      loss [L] only for [b = 2].  At [x_k = 2], [x = 1], [b = 3] the
      derivative of [L] is [168] while [d1L] gives [84]. *)
Theorem d1L_not_derivative_b3 :
    d1L (2 : R) 1 3 = 84 /\
    derivable_pt_lim (fun t => L t 1 3) 2 168 /\
    ~ derivable_pt_lim (fun t => L t 1 3) 2 (d1L 2 1 3).
  Proof.
    assert (Hd : d1L (2 : R) 1 3 = 84) by (rewrite d1L_R; simpl; lra).
    assert (HL : derivable_pt_lim (fun t => L t 1 3) 2 168).
    { pose proof (L_derivative 1 2 3) as H.
      replace (2 * (2 ^ 3 - 1) * (INR 3 * 2 ^ pred 3)) with 168 in H by (simpl; lra).
      exact H. }
    split; [exact Hd|]. split; [exact HL|].
    intros H. pose proof (uniqueness_limite _ _ _ _ HL H) as E. lra.
  Qed.




  (** C5 (refuted): the root of [x = 1] for [b = 2] is [1], outside the
      initial bracket [[0, x/2] = [0, 1/2]]. *)
Lemma root_outside_bracket_x1 :
    1 <= (1 : R) /\ (2 <= 2)%nat /\ 0 <= (1 : R) /\ (1 : R) ^ 2 = 1 /\
    ~ (0 <= 1 <= Binary.high (Binary.init (1 : R))).
  Proof. simpl. repeat split; try lra; lia. Qed.

  (** C5 (as amended): for [b >= 2] and [x >= 2^(b/(b-1))] (in particular
      every [x >= 4]) the b-th root [r >= 0] of [x] lies in the initial
      bracket [[low, high] = [0, x/2]]. *)
Theorem root_in_bracket (x r : R) (b : nat) :
    (2 <= b)%nat -> Rpower 2 (INR b / INR (b - 1)) <= x -> 0 <= r -> r ^ b = x ->
    Binary.low (Binary.init x) <= r <= Binary.high (Binary.init x).
  Proof.
    intros Hb Hth Hr Hrb.
    assert (Hx : 0 < x) by (pose proof (exp_pos (INR b / INR (b - 1) * ln 2)); unfold Rpower in Hth; lra).
    apply (threshold_pow x b Hb Hx) in Hth.
    simpl. split; [lra|].
    destruct (Rle_or_lt r (x / 2)) as [|Hlt]; [lra|].
    assert (H1 : (x / 2) ^ b < r ^ b) by (apply pow_lt_strict; lra || lia).
    assert (H2 : (x / 2) ^ b * 2 ^ b = x * x ^ (b - 1)) by (apply half_pow; lia).
    assert (H3 : 0 < 2 ^ b) by (apply pow_lt; lra).
    assert (x * 2 ^ b <= x * x ^ (b - 1)) by (apply Rmult_le_compat_l; lra).
    nra.
  Qed.

Lemma root_in_bracket_witness :
    ((2 <= 2)%nat /\ Rpower 2 (INR 2 / INR (2 - 1)) <= 4 /\ 0 <= 2 /\ (2 : R) ^ 2 = 4) /\
    Binary.low (Binary.init 4) <= 2 <= Binary.high (Binary.init 4).
  Proof.
    assert (Hp : Rpower 2 (INR 2 / INR (2 - 1)) <= 4).
    { replace (INR 2 / INR (2 - 1)) with (INR 2) by (simpl; field).
      rewrite Rpower_pow by lra. simpl. lra. }
    split; [repeat split; [lia | exact Hp | lra | simpl; lra]|].
    apply (root_in_bracket 4 2 2); [lia | exact Hp | lra | simpl; lra].
  Defined.

  (** C7: for any number type and [max_iter >= 1], each pass of either loop
      appends exactly one element to [x_list] and leaves the earlier ones
      unchanged; the returned trajectories extend the initial one-element
      list (so they are non-empty) and have length at most [max_iter]. *)
Theorem trajectory_append_only {A : Type} `{PyNum A} (x : A) (b : nat) (tol : A)
      (max_iter : Z) :
    (1 <= max_iter)%Z ->
    (forall s s', Newton.body x b s = Ok s' ->
       Newton.x_list s' = Newton.x_list s ++ [Newton.x_k s']) /\
    (forall s, Binary.x_list (Binary.body x b s)
               = Binary.x_list s ++ [Binary.mean (Binary.body x b s)]) /\
    (forall l, Newton.root_newton x b tol max_iter = Ok l ->
       (exists ext, l = Newton.x_list (Newton.init x) ++ ext) /\ l <> [] /\
       (length l <= Z.to_nat max_iter)%nat) /\
    (exists ext, Binary.root_binary x b tol max_iter = Binary.x_list (Binary.init x) ++ ext) /\
    Binary.root_binary x b tol max_iter <> [] /\
    (length (Binary.root_binary x b tol max_iter) <= Z.to_nat max_iter)%nat.
  Proof.
    intros Hm.
    split; [apply newton_body_append|].
    split; [apply binary_body_append|].
    split.
    { intros l E. unfold Newton.root_newton in E.
      destruct (Newton.loop _ _ _ _ _ _) as [s'|] eqn:El; [|discriminate].
      injection E as <-.
      destruct (newton_loop_grows _ _ _ _ _ _ _ El) as [[ext Hext] Hl].
      cbn [Newton.init Newton.x_list length] in Hext, Hl |- *.
      split; [exists ext; exact Hext|]. split; [rewrite Hext; discriminate | lia]. }
    destruct (binary_loop_grows x b tol max_iter (Z.to_nat max_iter) (Binary.init x))
      as [[ext Hext] Hl].
    unfold Binary.root_binary.
    cbn [Binary.init Binary.x_list length] in Hext, Hl |- *.
    split; [exists ext; exact Hext|]. split; [rewrite Hext; discriminate | lia].
  Qed.

Lemma trajectory_append_only_witness :
    (1 <= 2000)%Z /\
    (forall s s', Newton.body (144 : R) 2 s = Ok s' ->
       Newton.x_list s' = Newton.x_list s ++ [Newton.x_k s']) /\
    (forall s, Binary.x_list (Binary.body (144 : R) 2 s)
               = Binary.x_list s ++ [Binary.mean (Binary.body (144 : R) 2 s)]) /\
    (forall l, Newton.root_newton (144 : R) 2 1 2000 = Ok l ->
       (exists ext, l = Newton.x_list (Newton.init (144 : R)) ++ ext) /\ l <> [] /\
       (length l <= Z.to_nat 2000)%nat) /\
    (exists ext, Binary.root_binary (144 : R) 2 1 2000 = Binary.x_list (Binary.init (144 : R)) ++ ext) /\
    Binary.root_binary (144 : R) 2 1 2000 <> [] /\
    (length (Binary.root_binary (144 : R) 2 1%R 2000) <= Z.to_nat 2000)%nat.
  Proof.
    split; [lia|]. apply (trajectory_append_only (A := R) 144 2 1 2000). lia.
  Defined.

  (** C8 (refuted): on doubles the bracket width does not halve exactly.
      For [x = 144.0], [b = 2] and the default [tol] and [max_iter], the run
      of [root_binary] has 55 elements, and after 53 passes
      [high - low = 5 * 2^-49] (about [8.88e-15]), not [72/2^53]
      (about [7.99e-15]). *)
Lemma binary_bracket_not_halving_144 :
    ~ (exists k,
        Binary.root_binary (py_of_Z 144 : float) 2 f_1e16 2000
        = map (fun j => Binary.mean (Binary.after (py_of_Z 144 : float) 2 j)) (seq 0 (S k)) /\
        forall j, (j <= k)%nat ->
          0 <= FR (Binary.low (Binary.after (py_of_Z 144 : float) 2 j))
            <= FR (Binary.high (Binary.after (py_of_Z 144 : float) 2 j)) /\
          FR (Binary.high (Binary.after (py_of_Z 144 : float) 2 j))
          - FR (Binary.low (Binary.after (py_of_Z 144 : float) 2 j))
          = FR (py_of_Z 144 : float) / 2 / 2 ^ j).
  Proof.
    intros [k [E H]].
    assert (Hl : length (Binary.root_binary (py_of_Z 144 : float) 2 f_1e16 2000) = 55%nat)
      by (vm_compute; reflexivity).
    rewrite E, length_map, length_seq in Hl. injection Hl as ->.
    destruct (H 53%nat ltac:(lia)) as [_ Hw].
    assert (Eh : Binary.high (Binary.after (py_of_Z 144 : float) 2 53)
                 = Float 6755399441055747 (-49)) by (vm_compute; reflexivity).
    assert (El : Binary.low (Binary.after (py_of_Z 144 : float) 2 53)
                 = Float 6755399441055742 (-49)) by (vm_compute; reflexivity).
    rewrite Eh, El, FR_of_Z in Hw by (unfold prec; lia).
    rewrite !FR_bpow in Hw. cbn [Fnum Fexp] in Hw.
    replace (bpow (-49)) with (/ bpow 49) in Hw by (rewrite <- bpow_opp; reflexivity).
    assert (HB : 0 < bpow 49) by apply bpow_pos.
    assert (E53 : (2 : R) ^ 53 = 16 * bpow 49).
    { unfold bpow. cbn [powerRZ]. change (Pos.to_nat 49) with 49%nat.
      replace 53%nat with (4 + 49)%nat by reflexivity. rewrite pow_add. simpl. ring. }
    rewrite E53 in Hw.
    set (iB := / bpow 49) in Hw.
    assert (HiB : 0 < iB) by (apply Rinv_0_lt_compat; exact HB).
    replace (144 / 2 / (16 * bpow 49)) with (9 / 2 * iB) in Hw
      by (unfold iB; field; lra).
    lra.
  Qed.

  (** C8 (as amended, on doubles): for a double [x > 0] the run of
      [root_binary] goes through the loop states [after x b 0], ...,
      [after x b k]; in every loop state [0 <= low <= mean <= high <= x/2]
      (with [x/2] the double computed by [init]); a pass never widens the
      bracket; the new mean is the double nearest to [(high + low) / 2],
      the sum being the computed one; and the new width differs from half
      the old one exactly by the distance between the new mean and the
      exact midpoint [(high + low) / 2], so the width halves only while the
      midpoint is exact. *)
Theorem binary_bracket_float (x : float) (b : nat) (tol : float) (max_iter : Z) :
    0 < FR x ->
    exists k,
      Binary.root_binary x b tol max_iter
      = map (fun j => Binary.mean (Binary.after x b j)) (seq 0 (S k)) /\
      forall j,
        (0 <= FR (Binary.low (Binary.after x b j)) /\
         FR (Binary.low (Binary.after x b j)) <= FR (Binary.mean (Binary.after x b j)) /\
         FR (Binary.mean (Binary.after x b j)) <= FR (Binary.high (Binary.after x b j)) /\
         FR (Binary.high (Binary.after x b j)) <= FR (py_div x (py_of_Z 2))) /\
        FR (Binary.high (Binary.after x b (S j))) - FR (Binary.low (Binary.after x b (S j)))
        <= FR (Binary.high (Binary.after x b j)) - FR (Binary.low (Binary.after x b j)) /\
        (forall f, is_float f ->
           Rabs (FR (py_add (Binary.high (Binary.after x b j)) (Binary.low (Binary.after x b j))) / 2
                 - FR (Binary.mean (Binary.after x b (S j))))
           <= Rabs (FR (py_add (Binary.high (Binary.after x b j))
                               (Binary.low (Binary.after x b j))) / 2 - FR f)) /\
        Rabs ((FR (Binary.high (Binary.after x b (S j)))
               - FR (Binary.low (Binary.after x b (S j))))
              - (FR (Binary.high (Binary.after x b j))
                 - FR (Binary.low (Binary.after x b j))) / 2)
        = Rabs (FR (Binary.mean (Binary.after x b (S j)))
                - (FR (Binary.high (Binary.after x b j))
                   + FR (Binary.low (Binary.after x b j))) / 2).
  Proof.
    intros Hx. destruct (root_binary_states x b tol max_iter) as [k [E _]].
    exists k. split; [exact E|]. intros j.
    destruct (binary_F_states x b j ltac:(lra)) as [_ [_ [Hl0 [Hlm [Hmh Hhx]]]]].
    split; [repeat split; assumption|].
    change (Binary.after x b (S j)) with (Binary.body x b (Binary.after x b j)).
    set (s := Binary.after x b j) in *.
    destruct (binary_body_cases x b s) as [Em Ecase].
    pose proof (binary_F_states x b j ltac:(lra)) as [Hh [Hl _]]. fold s in Hh, Hl.
    destruct (mid_between (Binary.high s) (Binary.low s) Hh Hl ltac:(lra)) as [Hm1 Hm2].
    rewrite <- Em in Hm1, Hm2.
    assert (Hn : forall f, is_float f ->
      Rabs (FR (py_add (Binary.high s) (Binary.low s)) / 2 - FR (Binary.mean (Binary.body x b s)))
      <= Rabs (FR (py_add (Binary.high s) (Binary.low s)) / 2 - FR f)).
    { intros f Hf. rewrite Em. cbn [py_div PyNum_F].
      rewrite <- Q2R_FQ_half. apply round_nearest. exact Hf. }
    destruct Ecase as [[Eh El]|[Eh El]]; rewrite Eh, El.
    - split; [lra|]. split; [exact Hn|].
      f_equal. field.
    - split; [lra|]. split; [exact Hn|].
      rewrite <- Rabs_Ropp. f_equal. field.
  Qed.

Lemma binary_bracket_float_witness :
    0 < FR (py_of_Z 144 : float) /\
    exists k,
      Binary.root_binary (py_of_Z 144 : float) 2 f_1e16 2000
      = map (fun j => Binary.mean (Binary.after (py_of_Z 144 : float) 2 j)) (seq 0 (S k)) /\
      forall j,
        (0 <= FR (Binary.low (Binary.after (py_of_Z 144 : float) 2 j)) /\
         FR (Binary.low (Binary.after (py_of_Z 144 : float) 2 j))
         <= FR (Binary.mean (Binary.after (py_of_Z 144 : float) 2 j)) /\
         FR (Binary.mean (Binary.after (py_of_Z 144 : float) 2 j))
         <= FR (Binary.high (Binary.after (py_of_Z 144 : float) 2 j)) /\
         FR (Binary.high (Binary.after (py_of_Z 144 : float) 2 j))
         <= FR (py_div (py_of_Z 144 : float) (py_of_Z 2))) /\
        FR (Binary.high (Binary.after (py_of_Z 144 : float) 2 (S j)))
        - FR (Binary.low (Binary.after (py_of_Z 144 : float) 2 (S j)))
        <= FR (Binary.high (Binary.after (py_of_Z 144 : float) 2 j))
           - FR (Binary.low (Binary.after (py_of_Z 144 : float) 2 j)) /\
        (forall f, is_float f ->
           Rabs (FR (py_add (Binary.high (Binary.after (py_of_Z 144 : float) 2 j))
                            (Binary.low (Binary.after (py_of_Z 144 : float) 2 j))) / 2
                 - FR (Binary.mean (Binary.after (py_of_Z 144 : float) 2 (S j))))
           <= Rabs (FR (py_add (Binary.high (Binary.after (py_of_Z 144 : float) 2 j))
                               (Binary.low (Binary.after (py_of_Z 144 : float) 2 j))) / 2
                    - FR f)) /\
        Rabs ((FR (Binary.high (Binary.after (py_of_Z 144 : float) 2 (S j)))
               - FR (Binary.low (Binary.after (py_of_Z 144 : float) 2 (S j))))
              - (FR (Binary.high (Binary.after (py_of_Z 144 : float) 2 j))
                 - FR (Binary.low (Binary.after (py_of_Z 144 : float) 2 j))) / 2)
        = Rabs (FR (Binary.mean (Binary.after (py_of_Z 144 : float) 2 (S j)))
                - (FR (Binary.high (Binary.after (py_of_Z 144 : float) 2 j))
                   + FR (Binary.low (Binary.after (py_of_Z 144 : float) 2 j))) / 2).
  Proof.
    assert (H : 0 < FR (py_of_Z 144 : float))
      by (rewrite FR_of_Z by (unfold prec; lia); lra).
    split; [exact H|]. apply binary_bracket_float. exact H.
  Defined.



  (** C10: when the loop body of [root_binary] runs at least once
      ([|(x/4)^b - x| > tol] and [max_iter >= 2]), the first pass
      recomputes [mean] from the unchanged bracket, so the first two
      elements of the trajectory are both [x/4]. *)
Theorem binary_repeats_first (x : R) (b : nat) (tol : R) (max_iter : Z) :
    tol < Rabs ((x / 4) ^ b - x) -> (2 <= max_iter)%Z ->
    nth 0 (Binary.root_binary x b tol max_iter) 0 = x / 4 /\
    nth 1 (Binary.root_binary x b tol max_iter) 0 = x / 4.
  Proof.
    intros Ht Hm.
    assert (Hm0 : Binary.mean (Binary.after x b 0) = x / 4).
    { change (Binary.mean (Binary.after x b 0)) with ((x / 2 + 0) / 2). field. }
    destruct (root_binary_states x b tol max_iter) as [k [E [_ Hs]]].
    destruct k as [|k].
    { exfalso. assert (Binary.cond x b tol max_iter (Binary.after x b 0) = true); [|congruence].
      apply binary_cond_R. rewrite Hm0. split; [exact Ht|]. simpl. lia. }
    rewrite E, !nth_map_seq by lia. split; [exact Hm0|].
    change (Binary.after x b 1) with (Binary.body x b (Binary.after x b 0)).
    rewrite binary_body_mean.
    change (py_div (py_add (Binary.high (Binary.after x b 0)) (Binary.low (Binary.after x b 0)))
              (py_of_Z 2)) with ((x / 2 + 0) / 2). field.
  Qed.

Lemma binary_repeats_first_witness :
    (1 < Rabs ((144 / 4) ^ 2 - 144) /\ (2 <= 2000)%Z) /\
    nth 0 (Binary.root_binary 144 2 1 2000) 0 = 144 / 4 /\
    nth 1 (Binary.root_binary 144 2 1 2000) 0 = 144 / 4.
  Proof.
    assert (H : 1 < Rabs ((144 / 4) ^ 2 - 144)).
    { rewrite Rabs_right; simpl; lra. }
    split; [split; [exact H | lia]|].
    apply binary_repeats_first; [exact H | lia].
  Defined.

  (** C6: on the notebook's input [x = 144], [b = 2], [tol = 10**-9] (taken
      as the exact rational [1/10^9]) and the default [max_iter = 2000],
      [root_newton] returns 11 elements, the last within [1e-9] of [12];
      [root_binary] returns 41 elements, the last between [2e-11] and
      [2.2e-11] away from [12]. *)
Theorem notebook_run_144 :
    (exists l, Newton.root_newton 144 2 (1 / 10 ^ 9) default_max_iter = Ok l /\
       length l = 11%nat /\ Rabs (last l 0 - 12) <= 1 / 10 ^ 9) /\
    length (Binary.root_binary 144 2 (1 / 10 ^ 9) default_max_iter) = 41%nat /\
    2 / 10 ^ 11 <= Rabs (last (Binary.root_binary 144 2 (1 / 10 ^ 9) default_max_iter) 0 - 12)
      <= 22 / 10 ^ 12.
  Proof.
    unfold default_max_iter. split.
    - destruct (root_newton_run 144 2 (1 / 10 ^ 9) 2000) as [k [E [Hi Hs]]];
        [lra | lia | simpl; lra |].
      assert (Hk : k = 10%nat).
      { destruct (lt_eq_lt_dec k 10) as [[Hlt|Heq]|Hgt]; [| exact Heq |].
        - destruct Hs as [Hs|Hs]; [|lia].
          pose proof (newton_144_pass k ltac:(lia)). lra.
        - destruct (Hi 10%nat Hgt) as [Hd _].
          destruct newton_144_stop as [Hs' _]. lra. }
      subst k. eexists. split; [exact E|].
      rewrite length_map, length_seq. split; [reflexivity|].
      rewrite last_map_seq. destruct newton_144_stop as [_ Hy].
      rewrite Rabs_right by lra. lra.
    - assert (Ht : bigQ_to_R (q 144) = 144) by apply bigQ_to_R_q.
      rewrite <- Ht, <- tol_1e9_R, <- bigQ_root_binary, length_map, last_map_bigQ.
      assert (Hlen : length (Binary.root_binary (q 144) 2 tol_1e9 2000) = 41%nat)
        by (vm_compute; reflexivity).
      assert (Hv : BigQ.to_Q (last (Binary.root_binary (q 144) 2 tol_1e9 2000) (q 0))
                   = (1649267441667 # 137438953472)%Q) by (vm_compute; reflexivity).
      split; [exact Hlen|].
      unfold bigQ_to_R. rewrite Hv. unfold Q2R. cbn [Qnum Qden].
      rewrite Rabs_right; [split|]; lra.
  Qed.
End Claims.


(* ===================================================================== *)
(** * Further properties of the notebook's functions *)
(* ===================================================================== *)

(** ** [root_newton] for [b = 1] *)

Section NewtonB1.
Local Open Scope R_scope.


End NewtonB1.

(** ** Further properties *)

Section Extras.
Local Open Scope R_scope.

(** [d2L] is the derivative of [d1L] in [x_k], for every [x] and [b]: the
    loop of [root_newton] is Newton's method for the equation
    [d1L(x_k) = 0]. *)
Theorem d2L_derivative_of_d1L (x y : R) (b : nat) :
  derivable_pt_lim (fun t => d1L t x b) y (d2L y x b).
Proof.
  apply derivable_pt_lim_ext_fun
    with (g := mult_real_fct (2 * INR b) (minus_fct (fun t => t ^ (b + 1)) (mult_real_fct x id))).
  { intros t. unfold mult_real_fct, minus_fct, id. apply d1L_R. }
  rewrite d2L_R.
  replace (2 * INR b * ((INR b + 1) * y ^ b - x))
    with (2 * INR b * (INR (b + 1) * y ^ pred (b + 1) - x * 1))
    by (rewrite Nat.add_1_r, S_INR; cbn [pred]; ring).
  apply derivable_pt_lim_scal, derivable_pt_lim_minus;
    [apply derivable_pt_lim_pow | apply derivable_pt_lim_scal, derivable_pt_lim_id].
Qed.

(** For [b >= 1] and [x_k > 0], [d1L(x_k)] is the derivative [L'(x_k)] of
    the loss rescaled by the positive factor [x_k^(2-b)]
    ([d1L * x_k^(b-1) = x_k * L']): it has the sign of [L'], and it
    vanishes exactly when [x_k^b = x]. *)
Theorem d1L_rescales_L_derivative (x y : R) (b : nat) (l : R) :
  (1 <= b)%nat -> 0 < y -> derivable_pt_lim (fun t => L t x b) y l ->
  d1L y x b * y ^ (b - 1) = y * l /\
  (d1L y x b = 0 <-> y ^ b = x) /\
  (0 < d1L y x b <-> 0 < l).
Proof.
  intros Hb Hy Hl.
  pose proof (uniqueness_limite _ _ _ _ Hl (L_derivative x y b)) as El. subst l.
  destruct b as [|b]; [lia|].
  replace (S b - 1)%nat with b by lia. cbn [pred].
  rewrite d1L_R, Nat.add_1_r.
  assert (HB : 0 < INR (S b)) by (apply lt_0_INR; lia).
  assert (Hyb : 0 < y ^ b) by (apply pow_lt; lra).
  change (y ^ S (S b)) with (y * y ^ S b).
  set (u := y ^ S b - x).
  assert (E : 2 * INR (S b) * (y * y ^ S b - x * y) = (2 * INR (S b) * y) * u)
    by (unfold u; ring).
  rewrite E.
  assert (Hc : 0 < 2 * INR (S b) * y) by nra.
  assert (Hc' : 0 < 2 * (INR (S b) * y ^ b)) by nra.
  split; [change (y ^ S b) with (y * y ^ b) in u; unfold u; ring|].
  split.
  - split; intros H.
    + apply Rmult_integral in H. destruct H as [H|H]; [lra|]. unfold u in H. lra.
    + unfold u. rewrite H. ring.
  - split; intros H.
    + replace (2 * u * (INR (S b) * y ^ b)) with (u * (2 * (INR (S b) * y ^ b))) by ring.
      apply Rmult_lt_0_compat; [|exact Hc'].
      destruct (Rle_or_lt u 0) as [Hu|Hu]; [|exact Hu].
      assert (2 * INR (S b) * y * u <= 0); [|lra].
      rewrite <- (Rmult_0_r (2 * INR (S b) * y)). apply Rmult_le_compat_l; lra.
    + replace (2 * u * (INR (S b) * y ^ b)) with (u * (2 * (INR (S b) * y ^ b))) in H by ring.
      apply Rmult_lt_0_compat; [exact Hc|].
      destruct (Rle_or_lt u 0) as [Hu|Hu]; [|exact Hu].
      assert (u * (2 * (INR (S b) * y ^ b)) <= 0); [|lra].
      rewrite <- (Rmult_0_l (2 * (INR (S b) * y ^ b))). apply Rmult_le_compat_r; lra.
Qed.

Lemma d1L_rescales_L_derivative_witness :
  ((1 <= 2)%nat /\ 0 < 2 /\
   derivable_pt_lim (fun t => L t 1 2) 2 (2 * (2 ^ 2 - 1) * (INR 2 * 2 ^ pred 2))) /\
  d1L 2 1 2 * 2 ^ (2 - 1) = 2 * (2 * (2 ^ 2 - 1) * (INR 2 * 2 ^ pred 2)) /\
  (d1L 2 1 2 = 0 <-> 2 ^ 2 = 1) /\
  (0 < d1L 2 1 2 <-> 0 < 2 * (2 ^ 2 - 1) * (INR 2 * 2 ^ pred 2)).
Proof.
  assert (Hd := L_derivative 1 2 2).
  split; [split; [lia | split; [lra | exact Hd]]|].
  apply d1L_rescales_L_derivative; [lia | lra | exact Hd].
Defined.



End Extras.
